(** * GraphQL sample server: the resolver layer over the in-memory data store

    Shallow embedding of [src/index.js] (the resolver object [root], lines
    84-154).  The websocket variant of the same file has the same resolvers;
    its [addPost] additionally serialises the new post to the connected
    sockets before calling [root.post], which does not touch the store.

    The three arrays [users], [posts] and [comments] are shared mutable
    objects: resolvers write properties onto the very objects held in the
    arrays.  An object is therefore identified with its position in its
    array (the arrays only grow, by [push]), a resolver returns positions,
    and the store is threaded through every call. *)

From Stdlib Require Import ZArith String Ascii List Lia.
From stdpp Require Import base option list strings.

Local Open Scope Z_scope.
Local Open Scope string_scope.
Local Open Scope list_scope.

(** ** JavaScript values used as ids *)

(** An id is a number or a string: seeded ids and the ids assigned by the
    mutations are numbers, ids arriving as GraphQL [ID] arguments are strings.
    Numbers that serve as ids are integers. *)
Inductive JsVal : Type :=
| JNum (n : Z)
| JStr (s : string).

(** [==] between a number and a string converts the string with the
    language's StringToNumber.  Its result only matters here when it is an
    integer ([None] stands for NaN and for every non-integer value, which
    equal no integer).  The conversion is a parameter of the development. *)
Class JsCoercion : Type := StringToNumber : string -> option Z.

Definition loose_eq `{JsCoercion} (a b : JsVal) : bool :=
  match a, b with
  | JNum m, JNum n => Z.eqb m n
  | JStr s, JStr t => String.eqb s t
  | JNum m, JStr s | JStr s, JNum m =>
      match StringToNumber s with
      | Some n => Z.eqb n m
      | None => false
      end
  end.

(** [String.prototype.substr(start)]: the string from position [start] on. *)
Fixpoint substr (s : string) (start : nat) : string :=
  match start, s with
  | O, _ => s
  | S k, String _ rest => substr rest k
  | S _, EmptyString => EmptyString
  end.

(** [hay.includes(needle)], used to state that a URL contains a size. *)
Fixpoint includes (needle hay : string) : bool :=
  if String.prefix needle hay then true
  else match hay with
       | EmptyString => false
       | String _ rest => includes needle rest
       end.

(** ** Schema pieces the resolvers rely on *)

(** [enum AvatarSizes]; the value handed to a resolver is the name. *)
Inductive AvatarSizes : Type := S_32 | S_64 | S_128 | S_512.

Definition enum_name (a : AvatarSizes) : string :=
  match a with
  | S_32 => "S_32"
  | S_64 => "S_64"
  | S_128 => "S_128"
  | S_512 => "S_512"
  end.

(** [avatar(size: AvatarSizes = S_128)] *)
Definition avatar_default : AvatarSizes := S_128.

Record CommentInput : Type := mkCommentInput {
  ci_authorId : JsVal;
  ci_postId : JsVal;
  ci_text : string
}.

Record PostInput : Type := mkPostInput {
  pi_authorId : JsVal;
  pi_title : string;
  pi_text : string;
  pi_image : option string
}.

(** ** Function values attached to the stored objects

    Each constructor is one arrow function of the source together with what
    it captured.  A captured object is a position in its array. *)

(** [({size}) => 'https://picsum.photos/'+size.substr(2)] *)
Inductive AvatarFn : Type := AvatarResolver.

(** [() => root.user({id: post.authorId})], [post] the captured object. *)
Inductive PostAuthorFn : Type := PostAuthor (post : nat).

(** [() => root.comments({postId: id})] of [root.post] captures the
    argument; [() => root.comments({postId: post.id})] of [root.posts]
    captures the object. *)
Inductive PostCommentsFn : Type :=
| PostCommentsById (id : JsVal)
| PostCommentsOf (post : nat).

(** [() => post]; [post] is [undefined] ([None]) when the lookup missed. *)
Inductive CommentPostFn : Type := CommentPost (post : option nat).

(** [() => root.user({id: post.authorId})] with the same captured [post]. *)
Inductive CommentAuthorFn : Type := CommentAuthor (post : option nat).

(** ** The data store *)

Record User : Type := mkUser {
  u_id : JsVal;
  u_name : string;
  u_email : string;
  u_avatar : option AvatarFn
}.

Record Post : Type := mkPost {
  p_id : JsVal;
  p_title : string;
  p_text : string;
  p_authorId : JsVal;
  p_image : option string;
  p_createdAt : string;
  p_author : option PostAuthorFn;
  p_comments : option PostCommentsFn
}.

Record Comment : Type := mkComment {
  c_id : JsVal;
  c_text : string;
  c_authorId : JsVal;
  c_createdAt : string;
  c_postId : JsVal;
  c_post : option CommentPostFn;
  c_author : option CommentAuthorFn
}.

Module data.
Record Store : Type := mkStore {
  users : list User;
  posts : list Post;
  comments : list Comment
}.
End data.
Abbreviation Store := data.Store.

Definition set_avatar (f : AvatarFn) (u : User) : User :=
  mkUser (u_id u) (u_name u) (u_email u) (Some f).

Definition set_image (v : option string) (p : Post) : Post :=
  mkPost (p_id p) (p_title p) (p_text p) (p_authorId p) v (p_createdAt p)
         (p_author p) (p_comments p).

Definition set_post_author (f : PostAuthorFn) (p : Post) : Post :=
  mkPost (p_id p) (p_title p) (p_text p) (p_authorId p) (p_image p)
         (p_createdAt p) (Some f) (p_comments p).

Definition set_post_comments (f : PostCommentsFn) (p : Post) : Post :=
  mkPost (p_id p) (p_title p) (p_text p) (p_authorId p) (p_image p)
         (p_createdAt p) (p_author p) (Some f).

Definition set_comment_post (f : CommentPostFn) (c : Comment) : Comment :=
  mkComment (c_id c) (c_text c) (c_authorId c) (c_createdAt c) (c_postId c)
            (Some f) (c_author c).

Definition set_comment_author (f : CommentAuthorFn) (c : Comment) : Comment :=
  mkComment (c_id c) (c_text c) (c_authorId c) (c_createdAt c) (c_postId c)
            (c_post c) (Some f).

(** ** Computations on the store *)

Inductive JsError : Type := TypeError (message : string).

(** A call returns a value, or throws; [Dangling] has no counterpart in the
    source: it is the reading of a position that holds no object, which the
    resolvers never produce since nothing is ever removed from an array. *)
Inductive Outcome (A : Type) : Type :=
| Return (a : A) (st : Store)
| Throw (e : JsError) (st : Store)
| Dangling.
Arguments Return {A} a st.
Arguments Throw {A} e st.
Arguments Dangling {A}.

Definition M (A : Type) : Type := Store -> Outcome A.

Definition ret {A} (a : A) : M A := fun st => Return a st.

Definition bind {A B} (m : M A) (k : A -> M B) : M B :=
  fun st =>
    match m st with
    | Return a st' => k a st'
    | Throw e st' => Throw e st'
    | Dangling => Dangling
    end.

Notation "x <- m ;; k" := (bind m (fun x => k))
  (at level 100, m at level 99, right associativity).
Notation "m ;;; k" := (bind m (fun _ => k))
  (at level 100, right associativity).

Definition get : M Store := fun st => Return st st.

Definition throw {A} (e : JsError) : M A := fun st => Throw e st.

Definition modify_user (i : nat) (f : User -> User) : M unit :=
  fun st => Return tt (data.mkStore (alter f i (data.users st))
                                    (data.posts st) (data.comments st)).

Definition modify_post (i : nat) (f : Post -> Post) : M unit :=
  fun st => Return tt (data.mkStore (data.users st)
                                    (alter f i (data.posts st))
                                    (data.comments st)).

Definition modify_comment (i : nat) (f : Comment -> Comment) : M unit :=
  fun st => Return tt (data.mkStore (data.users st) (data.posts st)
                                    (alter f i (data.comments st))).

Definition read_post (i : nat) : M Post :=
  fun st => match data.posts st !! i with
            | Some p => Return p st
            | None => Dangling
            end.

Definition read_comment (i : nat) : M Comment :=
  fun st => match data.comments st !! i with
            | Some c => Return c st
            | None => Dangling
            end.

Definition push_post (p : Post) : M unit :=
  fun st => Return tt (data.mkStore (data.users st) (data.posts st ++ [p])
                                    (data.comments st)).

Definition push_comment (c : Comment) : M unit :=
  fun st => Return tt (data.mkStore (data.users st) (data.posts st)
                                    (data.comments st ++ [c])).

(** [array.map(callback)]: the callback runs on each element in order. *)
Fixpoint mapM {A B} (f : A -> M B) (l : list A) : M (list B) :=
  match l with
  | [] => ret []
  | x :: rest => y <- f x ;; ys <- mapM f rest ;; ret (y :: ys)
  end.

(** Positions of the elements [array.find] / [array.filter] select. *)
Definition find_index {A} (P : A -> bool) (l : list A) : option nat :=
  fst <$> list_find (fun x => P x = true) l.

Definition find_value {A} (P : A -> bool) (l : list A) : option A :=
  snd <$> list_find (fun x => P x = true) l.

Fixpoint filter_index_from {A} (P : A -> bool) (l : list A) (i : nat)
  : list nat :=
  match l with
  | [] => []
  | x :: rest =>
      if P x then i :: filter_index_from P rest (S i)
      else filter_index_from P rest (S i)
  end.

Definition filter_index {A} (P : A -> bool) (l : list A) : list nat :=
  filter_index_from P l 0.

(** [a || b] on an optional string: the empty string is falsy too. *)
Definition truthy (v : option string) : bool :=
  match v with
  | Some s => negb (String.eqb s "")
  | None => false
  end.

Definition js_or (a b : option string) : option string :=
  if truthy a then a else b.

Definition picsum : string := "https://picsum.photos/".
Definition fallback_image : string := "https://picsum.photos/600/400".

(** ** The resolvers: [const root = { ... }] *)

Module root.
Section Resolvers.
Context `{JsCoercion}.

(** [user({id})] *)
Definition user (id : JsVal) : M (option nat) :=
  st <- get ;;
  match find_index (fun u => loose_eq (u_id u) id) (data.users st) with
  | Some user =>
      modify_user user (set_avatar AvatarResolver) ;;;
      ret (Some user)
  | None => ret None
  end.

(** [users: () => users.map(user => ...)] *)
Definition users : M (list nat) :=
  st <- get ;;
  mapM (fun user =>
          modify_user user (set_avatar AvatarResolver) ;;;
          ret user)
       (seq 0 (length (data.users st))).

(** [post({id})] *)
Definition post (id : JsVal) : M (option nat) :=
  st <- get ;;
  match find_index (fun post => loose_eq (p_id post) id) (data.posts st) with
  | Some post =>
      modify_post post (set_image (Some fallback_image)) ;;;
      modify_post post (set_post_author (PostAuthor post)) ;;;
      modify_post post (set_post_comments (PostCommentsById id)) ;;;
      ret (Some post)
  | None => ret None
  end.

(** [posts: () => posts.map(post => ...)] *)
Definition posts : M (list nat) :=
  st <- get ;;
  mapM (fun post =>
          modify_post post
            (fun p => set_image (js_or (p_image p) (Some fallback_image)) p) ;;;
          modify_post post (set_post_author (PostAuthor post)) ;;;
          modify_post post (set_post_comments (PostCommentsOf post)) ;;;
          ret post)
       (seq 0 (length (data.posts st))).

(** [comments({postId})] *)
Definition comments (postId : JsVal) : M (list nat) :=
  st <- get ;;
  mapM (fun comment =>
          post <- post postId ;;
          modify_comment comment (set_comment_post (CommentPost post)) ;;;
          modify_comment comment (set_comment_author (CommentAuthor post)) ;;;
          ret comment)
       (filter_index (fun c => loose_eq (c_postId c) postId)
                     (data.comments st)).

(** [refs.find(c => c.id == id)] over objects given by position. *)
Definition find_comment_by_id (id : JsVal) (refs : list nat) : M (option nat) :=
  st <- get ;;
  ret (find_value
         (fun r => match data.comments st !! r with
                   | Some c => loose_eq (c_id c) id
                   | None => false
                   end) refs).

(** [addComment({ comment })]; [now] is [(new Date()).toString()]. *)
Definition addComment (comment : CommentInput) (now : string)
  : M (option nat) :=
  st <- get ;;
  let newComment :=
    mkComment (JNum (Z.of_nat (length (data.comments st)) + 1))
              (ci_text comment)
              (ci_authorId comment)
              now
              (ci_postId comment)
              None None in
  push_comment newComment ;;;
  found <- comments (ci_postId comment) ;;
  find_comment_by_id (c_id newComment) found.

(** [addPost({ post })] *)
Definition addPost (post_ : PostInput) (now : string) : M (option nat) :=
  st <- get ;;
  let newPost :=
    mkPost (JNum (Z.of_nat (length (data.posts st)) + 1))
           (pi_title post_)
           (pi_text post_)
           (pi_authorId post_)
           (pi_image post_)
           now
           None None in
  push_post newPost ;;;
  post (p_id newPost).

End Resolvers.
End root.

(** ** Calling the attached functions, as the engine does for a field *)

Section Fields.
Context `{JsCoercion}.

Definition call_avatar (f : AvatarFn) (size : string) : string :=
  match f with
  | AvatarResolver => picsum +:+ substr size 2
  end.

Definition call_post_author (f : PostAuthorFn) : M (option nat) :=
  match f with
  | PostAuthor post => p <- read_post post ;; root.user (p_authorId p)
  end.

Definition call_post_comments (f : PostCommentsFn) : M (list nat) :=
  match f with
  | PostCommentsById id => root.comments id
  | PostCommentsOf post => p <- read_post post ;; root.comments (p_id p)
  end.

Definition call_comment_post (f : CommentPostFn) : M (option nat) :=
  match f with
  | CommentPost post => ret post
  end.

(** [post.authorId] with [post] undefined throws. *)
Definition call_comment_author (f : CommentAuthorFn) : M (option nat) :=
  match f with
  | CommentAuthor (Some post) =>
      p <- read_post post ;; root.user (p_authorId p)
  | CommentAuthor None =>
      throw (TypeError "Cannot read properties of undefined (reading 'authorId')")
  end.

(** The field [avatar] of a [User]; an omitted argument takes the schema's
    default.  A property that is not there resolves to null. *)
Definition field_avatar (u : User) (size : option AvatarSizes)
  : option string :=
  match u_avatar u with
  | Some f => Some (call_avatar f (enum_name (default avatar_default size)))
  | None => None
  end.

(** The field [author] of the [Comment] at position [c]. *)
Definition field_comment_author (c : nat) : M (option nat) :=
  cm <- read_comment c ;;
  match c_author cm with
  | Some f => call_comment_author f
  | None => ret None
  end.

(** The query fields, as dispatched on [root]. *)
Inductive Query : Type :=
| QUser (id : JsVal)
| QUsers
| QPost (id : JsVal)
| QPosts
| QComments (postId : JsVal).

Inductive Answer : Type :=
| AnObject (r : option nat)
| AList (rs : list nat).

Definition run_query (q : Query) : M Answer :=
  match q with
  | QUser id => r <- root.user id ;; ret (AnObject r)
  | QUsers => rs <- root.users ;; ret (AList rs)
  | QPost id => r <- root.post id ;; ret (AnObject r)
  | QPosts => rs <- root.posts ;; ret (AList rs)
  | QComments postId => rs <- root.comments postId ;; ret (AList rs)
  end.

End Fields.

(** A conversion for running the resolvers on concrete stores.  It reads a
    string of decimal digits, and the empty string as 0, as the language
    does; every other string (blanks, signs, exponents, other radixes) it
    answers with [None], so the concrete stores below write their string
    ids in plain digits. *)
Definition digit_value (c : ascii) : option Z :=
  let n := Z.of_nat (nat_of_ascii c) in
  if ((48 <=? n) && (n <=? 57))%Z then Some (n - 48) else None.

Fixpoint digits_value (acc : Z) (s : string) : option Z :=
  match s with
  | EmptyString => Some acc
  | String c rest =>
      match digit_value c with
      | Some d => digits_value (10 * acc + d) rest
      | None => None
      end
  end.

#[global] Instance decimal_coercion : JsCoercion := digits_value 0.

(** One user and one post that has an image of its own. *)
Definition seed1 : Store :=
  data.mkStore [mkUser (JNum 1) "Ann" "ann@example.org" None]
               [mkPost (JNum 1) "Hello" "First post" (JNum 1) (Some "cat.png")
                       "Mon Jan 01 2024" None None]
               [].

(** The scenario store: one user (id 1), one post (id 1, author 1), no
    comment. *)
Definition scenario : Store :=
  data.mkStore [mkUser (JNum 1) "Ann" "ann@example.org" None]
               [mkPost (JNum 1) "Hello" "First post" (JNum 1) None
                       "Mon Jan 01 2024" None None]
               [].

(** One comment on post 7, and no post at all. *)
Definition orphan : Store :=
  data.mkStore [mkUser (JNum 1) "Ann" "ann@example.org" None]
               []
               [mkComment (JNum 1) "lost" (JNum 1) "Mon Jan 01 2024" (JNum 7)
                          None None].

(** Two users; the post is by the first, its comment by the second. *)
Definition seed2 : Store :=
  data.mkStore [mkUser (JNum 1) "Ann" "ann@example.org" None;
                mkUser (JNum 2) "Bob" "bob@example.org" None]
               [mkPost (JNum 1) "Hello" "First post" (JNum 1) None
                       "Mon Jan 01 2024" None None]
               [mkComment (JNum 1) "Nice" (JNum 2) "Tue Jan 02 2024" (JNum 1)
                          None None].

Definition store_after {A} (o : Outcome A) (otherwise : Store) : Store :=
  match o with
  | Return _ st => st
  | Throw _ st => st
  | Dangling => otherwise
  end.

(** [seed2] after [comments(postId: 1)]. *)
Definition seed2_commented : Store :=
  Eval vm_compute in store_after (root.comments (JNum 1) seed2) seed2.

(** ** What a call leaves alone *)

(** The persisted fields of an entity, the image of a post apart. *)
Definition same_user (u u' : User) : Prop :=
  u_id u' = u_id u /\ u_name u' = u_name u /\ u_email u' = u_email u.

Definition same_post (p p' : Post) : Prop :=
  p_id p' = p_id p /\ p_title p' = p_title p /\ p_text p' = p_text p /\
  p_authorId p' = p_authorId p /\ p_createdAt p' = p_createdAt p.

Definition same_comment (c c' : Comment) : Prop :=
  c_id c' = c_id c /\ c_text c' = c_text c /\ c_authorId c' = c_authorId c /\
  c_createdAt c' = c_createdAt c /\ c_postId c' = c_postId c.


(** Entity for entity, the persisted fields other than the image agree. *)
Definition persisted_but_image (st st' : Store) : Prop :=
  Forall2 same_user (data.users st) (data.users st') /\
  Forall2 same_post (data.posts st) (data.posts st') /\
  Forall2 same_comment (data.comments st) (data.comments st').





(** ** The other function-valued fields *)

Section MoreFields.
Context `{JsCoercion}.

(** The field [author] of the [Post] at position [p]. *)
Definition field_post_author (p : nat) : M (option nat) :=
  po <- read_post p ;;
  match p_author po with
  | Some f => call_post_author f
  | None => ret None
  end.

(** The field [comments] of the [Post] at position [p]; [None] is the
    property not being there. *)
Definition field_post_comments (p : nat) : M (option (list nat)) :=
  po <- read_post p ;;
  match p_comments po with
  | Some f => rs <- call_post_comments f ;; ret (Some rs)
  | None => ret None
  end.

(** The field [post] of the [Comment] at position [c]. *)
Definition field_comment_post (c : nat) : M (option nat) :=
  cm <- read_comment c ;;
  match c_post cm with
  | Some f => call_comment_post f
  | None => ret None
  end.

End MoreFields.

(** Ids that follow the positions: the entity at position [i] (from 0) has
    the number [i + 1] as id, which is what [length + 1] hands out on a
    store that started that way. *)
Definition sequential_ids (st : Store) : Prop :=
  (forall i p, data.posts st !! i = Some p -> p_id p = JNum (Z.of_nat i + 1)) /\
  (forall i c, data.comments st !! i = Some c -> c_id c = JNum (Z.of_nat i + 1)).

(** Each post of [st] is still there in [st'], with the image it had or
    with the fallback URL. *)
Definition image_same_or_fallback (st st' : Store) : Prop :=
  forall i p, data.posts st !! i = Some p ->
    exists p', data.posts st' !! i = Some p' /\
               (p_image p' = p_image p \/ p_image p' = Some fallback_image).

(** One post, whose id is already the one the next [addPost] hands out. *)
Definition collide : Store :=
  data.mkStore [mkUser (JNum 1) "Ann" "ann@example.org" None]
               [mkPost (JNum 2) "Old" "Seeded with id 2" (JNum 1)
                       (Some "old.png") "Mon Jan 01 2024" None None]
               [].

(** ** The websocket variant of [addPost]

    [makeEvent] returns [JSON.stringify({ event: eventName, data })]; the
    message is kept here as the value that is serialised, read off the
    object when [makeEvent] runs.  Function-valued properties are not part
    of a serialisation. *)

Module ws.

Definition without_functions (p : Post) : Post :=
  mkPost (p_id p) (p_title p) (p_text p) (p_authorId p) (p_image p)
         (p_createdAt p) None None.

(** The [data] of an event: [{ newPost }]. *)
Inductive Data : Type := NewPost (newPost : Post).

Record Message : Type := mkMessage {
  event : string;
  data : Data
}.

(** [makeEvent(eventName, data)] *)
Definition makeEvent (eventName : string) (d : Data) : Message :=
  mkMessage eventName d.

(** The connected sockets, each with what was sent to it, oldest first. *)
Definition Clients : Type := list (list Message).

(** [broadcast(message)]: [clients.forEach(c => c.send(message))] *)
Definition broadcast (message : Message) (clients : Clients) : Clients :=
  map (fun sent => sent ++ [message]) clients.

(** [version: () => '1.2.3'] *)
Definition version : string := "1.2.3".

Section Variant.
Context `{JsCoercion}.

(** [addPost({ post })] of the variant: the broadcast comes after the push
    and before [root.post]. *)
Definition addPost (post_ : PostInput) (now : string) (clients : Clients)
  : M (option nat * Clients) :=
  st <- get ;;
  let newPost :=
    mkPost (JNum (Z.of_nat (length (data.posts st)) + 1))
           (pi_title post_)
           (pi_text post_)
           (pi_authorId post_)
           (pi_image post_)
           now
           None None in
  push_post newPost ;;;
  pushed <- read_post (length (data.posts st)) ;;
  let clients' :=
    broadcast (makeEvent "addPost" (NewPost (without_functions pushed)))
              clients in
  r <- root.post (p_id newPost) ;;
  ret (r, clients').

End Variant.
End ws.

(** ** Reasoning about computations *)

Section Monad.
Context {A B : Type}.

Lemma bind_Return (m : M A) (k : A -> M B) st a st' :
  m st = Return a st' -> bind m k st = k a st'.
Proof. unfold bind. now intros ->. Qed.
End Monad.

(** A loop whose body hands back its element: [I] is kept by every turn,
    [Q x] is established by the turn for [x] and kept by the others. *)
Lemma mapM_inv {A} (f : A -> M A) (I : Store -> Prop)
      (Q : A -> Store -> Prop) (l : list A) :
  (forall x st, x ∈ l -> I st ->
     exists st', f x st = Return x st' /\ I st' /\ Q x st' /\
                 forall y, Q y st -> Q y st') ->
  forall st, I st ->
    exists st', mapM f l st = Return l st' /\ I st' /\
                (forall x, x ∈ l -> Q x st') /\
                (forall y, Q y st -> Q y st').
Proof.
  induction l as [|x rest IH]; intros Hbody st HI.
  - exists st. split; [reflexivity|]. split; [assumption|].
    split; [|auto]. intros x Hx. inversion Hx.
  - destruct (Hbody x st) as (st1 & Hf & HI1 & HQ1 & Hkeep1);
      [left | assumption |].
    destruct (IH (fun y s Hy => Hbody y s (list_elem_of_further _ _ _ Hy)) st1 HI1)
      as (st2 & Hrest & HI2 & HQ2 & Hkeep2).
    exists st2. split.
    + cbn [mapM]. rewrite (bind_Return _ _ _ _ _ Hf).
      rewrite (bind_Return _ _ _ _ _ Hrest). reflexivity.
    + split; [assumption|]. split; [|auto].
      intros y Hy. apply elem_of_cons in Hy as [->|Hy]; auto.
Qed.

(** *** Frame relations are preorders, and the setters respect them *)

Lemma same_user_refl u : same_user u u.
Proof. repeat split. Qed.

Lemma same_post_refl p : same_post p p.
Proof. repeat split. Qed.

Lemma same_comment_refl c : same_comment c c.
Proof. repeat split. Qed.

Lemma same_user_trans u1 u2 u3 :
  same_user u1 u2 -> same_user u2 u3 -> same_user u1 u3.
Proof. unfold same_user. intuition congruence. Qed.

Lemma same_post_trans p1 p2 p3 :
  same_post p1 p2 -> same_post p2 p3 -> same_post p1 p3.
Proof. unfold same_post. intuition congruence. Qed.

Lemma same_comment_trans c1 c2 c3 :
  same_comment c1 c2 -> same_comment c2 c3 -> same_comment c1 c3.
Proof. unfold same_comment. intuition congruence. Qed.

Lemma Forall2_refl_on {A} (R : A -> A -> Prop) (l : list A) :
  (forall x, R x x) -> Forall2 R l l.
Proof. intros HR. induction l; constructor; auto. Qed.

Lemma persisted_but_image_refl st : persisted_but_image st st.
Proof.
  repeat split; apply Forall2_refl_on;
    auto using same_user_refl, same_post_refl, same_comment_refl.
Qed.

Lemma persisted_but_image_trans st1 st2 st3 :
  persisted_but_image st1 st2 -> persisted_but_image st2 st3 ->
  persisted_but_image st1 st3.
Proof.
  intros (Hu & Hp & Hc) (Hu' & Hp' & Hc'). repeat split.
  - eapply Forall2_trans; [apply same_user_trans | eassumption..].
  - eapply Forall2_trans; [apply same_post_trans | eassumption..].
  - eapply Forall2_trans; [apply same_comment_trans | eassumption..].
Qed.

Lemma modify_user_frame i f st :
  (forall u, same_user u (f u)) ->
  exists st', modify_user i f st = Return tt st' /\
              persisted_but_image st st' /\
              data.users st' = alter f i (data.users st) /\
              data.posts st' = data.posts st /\
              data.comments st' = data.comments st.
Proof.
  intros Hf. eexists. split; [reflexivity|].
  split; [|auto]. repeat split; cbn.
  - apply Forall2_alter_r; [apply Forall2_refl_on, same_user_refl|].
    intros x y _ _ Hxy. eapply same_user_trans; eauto.
  - apply Forall2_refl_on, same_post_refl.
  - apply Forall2_refl_on, same_comment_refl.
Qed.

Lemma modify_post_frame i f st :
  (forall p, same_post p (f p)) ->
  exists st', modify_post i f st = Return tt st' /\
              persisted_but_image st st' /\
              data.users st' = data.users st /\
              data.posts st' = alter f i (data.posts st) /\
              data.comments st' = data.comments st.
Proof.
  intros Hf. eexists. split; [reflexivity|].
  split; [|auto]. repeat split; cbn.
  - apply Forall2_refl_on, same_user_refl.
  - apply Forall2_alter_r; [apply Forall2_refl_on, same_post_refl|].
    intros x y _ _ Hxy. eapply same_post_trans; eauto.
  - apply Forall2_refl_on, same_comment_refl.
Qed.

Lemma modify_comment_frame i f st :
  (forall c, same_comment c (f c)) ->
  exists st', modify_comment i f st = Return tt st' /\
              persisted_but_image st st' /\
              data.users st' = data.users st /\
              data.posts st' = data.posts st /\
              data.comments st' = alter f i (data.comments st).
Proof.
  intros Hf. eexists. split; [reflexivity|].
  split; [|auto]. repeat split; cbn.
  - apply Forall2_refl_on, same_user_refl.
  - apply Forall2_refl_on, same_post_refl.
  - apply Forall2_alter_r; [apply Forall2_refl_on, same_comment_refl|].
    intros x y _ _ Hxy. eapply same_comment_trans; eauto.
Qed.

(** *** [find] and [filter] by position *)

Lemma find_index_Some {A} (P : A -> bool) (l : list A) (i : nat) :
  find_index P l = Some i <->
  exists x, l !! i = Some x /\ P x = true /\
            forall j y, l !! j = Some y -> (j < i)%nat -> P y = false.
Proof.
  unfold find_index. split.
  - intros Hf. apply fmap_Some in Hf as ([j x] & Hf & ->).
    apply list_find_Some in Hf as (Hl & HP & Hmin).
    exists x. repeat split; auto. intros k y Hk Hlt.
    specialize (Hmin k y Hk Hlt). now destruct (P y).
  - intros (x & Hl & HP & Hmin). apply fmap_Some. exists (i, x).
    split; [|reflexivity]. apply list_find_Some. repeat split; auto.
    intros k y Hk Hlt. rewrite (Hmin k y Hk Hlt). discriminate.
Qed.

Lemma find_index_None {A} (P : A -> bool) (l : list A) :
  find_index P l = None <-> Forall (fun x => P x = false) l.
Proof.
  unfold find_index. rewrite fmap_None, list_find_None.
  split; intros HF; (eapply Forall_impl; [exact HF|]);
    intros x; cbn; destruct (P x); congruence.
Qed.

(** [find] by a key only looks at the key. *)
Lemma find_index_key {A K} (key : A -> K) (g : K -> bool) (l l' : list A) :
  Forall2 (fun x x' => key x' = key x) l l' ->
  find_index (fun x => g (key x)) l' = find_index (fun x => g (key x)) l.
Proof.
  intros HF. unfold find_index.
  enough (Hgen : forall l l', Forall2 (fun x x' => key x' = key x) l l' ->
            fst <$> list_find (fun x => g (key x) = true) l'
            = fst <$> list_find (fun x => g (key x) = true) l) by auto.
  clear. induction 1 as [|x x' l l' Hk _ IH]; [reflexivity|].
  cbn. rewrite Hk. destruct (decide (g (key x) = true)); [reflexivity|].
  destruct (list_find _ l') as [[??]|], (list_find _ l) as [[??]|];
    cbn in *; congruence.
Qed.

Lemma elem_of_filter_index_from {A} (P : A -> bool) (l : list A) (k i : nat) :
  i ∈ filter_index_from P l k <->
  exists x, (k <= i)%nat /\ l !! (i - k)%nat = Some x /\ P x = true.
Proof.
  revert k. induction l as [|a l IH]; intros k; cbn.
  - rewrite elem_of_nil. split; [tauto|]. intros (x & _ & Hx & _).
    discriminate.
  - assert (Hrest : i ∈ filter_index_from P l (S k) <->
              exists x, (k < i)%nat /\ (a :: l) !! (i - k)%nat = Some x /\
                        P x = true).
    { rewrite IH. split; intros (x & Hlt & Hl & HP); exists x;
        (split; [lia|]); (split; [|assumption]).
      - replace (i - k)%nat with (S (i - S k)) by lia. exact Hl.
      - replace (i - k)%nat with (S (i - S k)) in Hl by lia. exact Hl. }
    destruct (P a) eqn:Ha.
    + rewrite elem_of_cons, Hrest. split.
      * intros [->|(x & Hlt & Hl & HP)].
        -- exists a. rewrite Nat.sub_diag. auto.
        -- exists x. split; [lia|auto].
      * intros (x & Hle & Hl & HP).
        destruct (decide (i = k)) as [->|Hne]; [now left|right].
        exists x. split; [lia|auto].
    + rewrite Hrest. split.
      * intros (x & Hlt & Hl & HP). exists x. split; [lia|auto].
      * intros (x & Hle & Hl & HP).
        destruct (decide (i = k)) as [->|Hne].
        -- rewrite Nat.sub_diag in Hl. cbn in Hl. congruence.
        -- exists x. split; [lia|auto].
Qed.

Lemma elem_of_filter_index {A} (P : A -> bool) (l : list A) (i : nat) :
  i ∈ filter_index P l <-> exists x, l !! i = Some x /\ P x = true.
Proof.
  unfold filter_index. rewrite elem_of_filter_index_from.
  rewrite Nat.sub_0_r. split.
  - intros (x & _ & ?). eauto.
  - intros (x & ?). exists x. split; [lia|auto].
Qed.

Lemma filter_index_from_lb {A} (P : A -> bool) (l : list A) (k i : nat) :
  i ∈ filter_index_from P l k -> (k <= i)%nat.
Proof. rewrite elem_of_filter_index_from. intros (? & ? & _). assumption. Qed.

Lemma NoDup_filter_index_from {A} (P : A -> bool) (l : list A) (k : nat) :
  NoDup (filter_index_from P l k).
Proof.
  revert k. induction l as [|a l IH]; intros k; cbn; [constructor|].
  destruct (P a); [|apply IH]. constructor; [|apply IH].
  intros Hin%filter_index_from_lb. lia.
Qed.

(** *** The two lookups *)

Section Lookups.
Context `{JsCoercion}.

Lemma user_unfold id st :
  root.user id st =
  match find_index (fun u => loose_eq (u_id u) id) (data.users st) with
  | Some i =>
      Return (Some i)
        (data.mkStore (alter (set_avatar AvatarResolver) i (data.users st))
                      (data.posts st) (data.comments st))
  | None => Return None st
  end.
Proof. unfold root.user, bind, get. destruct find_index; reflexivity. Qed.

Lemma post_unfold id st :
  root.post id st =
  match find_index (fun p => loose_eq (p_id p) id) (data.posts st) with
  | Some i =>
      Return (Some i)
        (data.mkStore (data.users st)
           (alter (set_post_comments (PostCommentsById id)) i
              (alter (set_post_author (PostAuthor i)) i
                 (alter (set_image (Some fallback_image)) i (data.posts st))))
           (data.comments st))
  | None => Return None st
  end.
Proof. unfold root.post, bind, get. destruct find_index; reflexivity. Qed.

Lemma user_frame id st :
  exists st',
    root.user id st
    = Return (find_index (fun u => loose_eq (u_id u) id) (data.users st)) st' /\
    persisted_but_image st st' /\
    data.posts st' = data.posts st /\
    data.comments st' = data.comments st.
Proof.
  rewrite user_unfold. destruct find_index as [i|].
  - destruct (modify_user_frame i (set_avatar AvatarResolver) st)
      as (st' & Hm & Hfr & Hu & Hp & Hc); [intro; repeat split|].
    injection Hm as <-. eexists. split; [reflexivity|]. auto.
  - exists st. split; [reflexivity|].
    split; [apply persisted_but_image_refl|auto].
Qed.

Lemma post_frame id st :
  exists st',
    root.post id st
    = Return (find_index (fun p => loose_eq (p_id p) id) (data.posts st)) st' /\
    persisted_but_image st st' /\
    data.users st' = data.users st /\
    data.comments st' = data.comments st.
Proof.
  rewrite post_unfold. destruct find_index as [i|].
  - eexists. split; [reflexivity|]. split; [|auto]. repeat split; cbn.
    + apply Forall2_refl_on, same_user_refl.
    + repeat (apply Forall2_alter_r;
              [|intros x y _ _ Hxy; eapply same_post_trans;
                [exact Hxy|repeat split]]).
      apply Forall2_refl_on, same_post_refl.
    + apply Forall2_refl_on, same_comment_refl.
  - exists st. split; [reflexivity|].
    split; [apply persisted_but_image_refl|auto].
Qed.

(** What [root.post] leaves at the position it found. *)
Lemma post_found id st i :
  find_index (fun p => loose_eq (p_id p) id) (data.posts st) = Some i ->
  exists st' p p',
    root.post id st = Return (Some i) st' /\
    data.posts st !! i = Some p /\
    data.posts st' !! i = Some p' /\
    same_post p p' /\
    p_image p' = Some fallback_image /\
    p_author p' = Some (PostAuthor i) /\
    p_comments p' = Some (PostCommentsById id).
Proof.
  intros Hfind. rewrite post_unfold, Hfind.
  apply find_index_Some in Hfind as (p & Hp & _).
  eexists _, p, _. split; [reflexivity|]. split; [exact Hp|]. cbn.
  rewrite !list_lookup_alter_eq, Hp. cbn. split; [reflexivity|].
  repeat split.
Qed.

Lemma loose_eq_refl v : loose_eq v v = true.
Proof. destruct v; cbn; [apply Z.eqb_refl | apply String.eqb_refl]. Qed.

End Lookups.

(** *** The three loops *)

Lemma js_or_idem a b : js_or (js_or a b) b = js_or a b.
Proof.
  unfold js_or. destruct (truthy a) eqn:Ha; [now rewrite Ha|].
  now destruct (truthy b).
Qed.

Lemma js_or_truthy a b : truthy a = true -> js_or a b = a.
Proof. unfold js_or. now intros ->. Qed.

Lemma js_or_falsy a b : truthy a = false -> js_or a b = b.
Proof. unfold js_or. now intros ->. Qed.

Section Loops.
Context `{JsCoercion}.

Lemma users_spec st :
  exists st',
    root.users st = Return (seq 0 (length (data.users st))) st' /\
    persisted_but_image st st' /\
    data.posts st' = data.posts st /\
    data.comments st' = data.comments st /\
    forall i, i ∈ seq 0 (length (data.users st)) ->
              exists u, data.users st' !! i = Some u /\
                        u_avatar u = Some AvatarResolver.
Proof.
  unfold root.users, bind at 1, get.
  set (I := fun s => persisted_but_image st s /\
                     data.posts s = data.posts st /\
                     data.comments s = data.comments st).
  set (Q := fun (i : nat) s =>
              exists u, data.users s !! i = Some u /\
                        u_avatar u = Some AvatarResolver).
  edestruct (mapM_inv
               (fun user => modify_user user (set_avatar AvatarResolver) ;;;
                            ret user)
               I Q (seq 0 (length (data.users st))))
    as (st' & Hrun & (Hfr & Hp & Hc) & HQ & _).
  - intros x s Hx (Hfr & Hp & Hc).
    destruct (modify_user_frame x (set_avatar AvatarResolver) s)
      as (s' & Hm & Hfr' & Hu' & Hp' & Hc'); [intro; repeat split|].
    exists s'. split; [unfold bind; now rewrite Hm|].
    split; [|split].
    + split; [eapply persisted_but_image_trans; eauto|].
      split; congruence.
    + apply elem_of_seq in Hx as [_ Hx]. cbn in Hx.
      destruct Hfr as (Hus & _). apply Forall2_length in Hus.
      destruct (lookup_lt_is_Some_2 (data.users s) x) as [u Hu]; [lia|].
      exists (set_avatar AvatarResolver u). split; [|reflexivity].
      now rewrite Hu', list_lookup_alter_eq, Hu.
    + intros y (u & Hu & Hav). unfold Q. rewrite Hu'.
      destruct (decide (x = y)) as [->|Hne].
      * exists (set_avatar AvatarResolver u). split; [|reflexivity].
        now rewrite list_lookup_alter_eq, Hu.
      * exists u. now rewrite list_lookup_alter_ne.
  - split; [apply persisted_but_image_refl|auto].
  - exists st'. repeat split; auto. apply Hfr. apply Hfr. apply Hfr.
Qed.

Lemma posts_spec st :
  exists st',
    root.posts st = Return (seq 0 (length (data.posts st))) st' /\
    persisted_but_image st st' /\
    data.users st' = data.users st /\
    data.comments st' = data.comments st /\
    forall i p, data.posts st !! i = Some p ->
      exists p', data.posts st' !! i = Some p' /\
                 p_image p' = js_or (p_image p) (Some fallback_image) /\
                 p_author p' = Some (PostAuthor i) /\
                 p_comments p' = Some (PostCommentsOf i).
Proof.
  unfold root.posts, bind at 1, get.
  set (body := fun post : nat =>
         modify_post post
           (fun p => set_image (js_or (p_image p) (Some fallback_image)) p) ;;;
         modify_post post (set_post_author (PostAuthor post)) ;;;
         modify_post post (set_post_comments (PostCommentsOf post)) ;;;
         ret post).
  set (img := fun p p' : Post =>
         p_image p' = p_image p \/
         p_image p' = js_or (p_image p) (Some fallback_image)).
  set (I := fun s => persisted_but_image st s /\
                     data.users s = data.users st /\
                     data.comments s = data.comments st /\
                     Forall2 img (data.posts st) (data.posts s)).
  set (Q := fun (i : nat) s =>
              exists p p', data.posts st !! i = Some p /\
                 data.posts s !! i = Some p' /\
                 p_image p' = js_or (p_image p) (Some fallback_image) /\
                 p_author p' = Some (PostAuthor i) /\
                 p_comments p' = Some (PostCommentsOf i)).
  assert (Hstep : forall x s, I s ->
            exists s', body x s = Return x s' /\ I s' /\
              data.posts s' =
              alter (set_post_comments (PostCommentsOf x)) x
                (alter (set_post_author (PostAuthor x)) x
                   (alter (fun p => set_image
                             (js_or (p_image p) (Some fallback_image)) p) x
                          (data.posts s)))).
  { intros x s (Hfr & Hu & Hc & Himg).
    eexists. split; [reflexivity|]. cbn. split; [|reflexivity].
    split; [|split; [assumption|split; [assumption|]]].
    - eapply persisted_but_image_trans; [exact Hfr|].
      repeat split; cbn.
      + apply Forall2_refl_on, same_user_refl.
      + repeat (apply Forall2_alter_r;
                [|intros a b _ _ Hab; eapply same_post_trans;
                  [exact Hab|repeat split]]).
        apply Forall2_refl_on, same_post_refl.
      + apply Forall2_refl_on, same_comment_refl.
    - apply Forall2_alter_r; [apply Forall2_alter_r|];
        [apply Forall2_alter_r; [exact Himg|] | |];
        intros a b _ _ Hab; unfold img in *; cbn; try exact Hab.
      right. destruct Hab as [->| ->]; [reflexivity|apply js_or_idem]. }
  edestruct (mapM_inv body I Q (seq 0 (length (data.posts st))))
    as (st' & Hrun & (Hfr & Hu & Hc & Himg) & HQ & _).
  - intros x s Hx HI.
    destruct (Hstep x s HI) as (s' & Hb & HI' & Hps).
    exists s'. split; [exact Hb|]. split; [exact HI'|].
    destruct HI as (_ & _ & _ & Himg).
    assert (Hx' : forall y, Q y s -> x <> y -> Q y s').
    { intros y (p & p' & Hp & Hp' & HQy) Hne. exists p, p'.
      split; [exact Hp|]. split; [|exact HQy].
      now rewrite Hps, !list_lookup_alter_ne. }
    assert (Hxx : Q x s').
    { apply elem_of_seq in Hx as [_ Hx]. cbn in Hx.
      destruct (lookup_lt_is_Some_2 (data.posts st) x) as [p Hp]; [lia|].
      destruct (Forall2_lookup_l _ _ _ _ _ Himg Hp) as (p' & Hp' & Hi).
      exists p. eexists. split; [exact Hp|].
      rewrite Hps, !list_lookup_alter_eq, Hp'. cbn.
      split; [reflexivity|]. cbn. split; [|auto].
      destruct Hi as [->| ->]; [reflexivity|apply js_or_idem]. }
    split; [exact Hxx|]. intros y Hy.
    destruct (decide (x = y)) as [<-|Hne]; auto.
  - split; [apply persisted_but_image_refl|].
    split; [reflexivity|]. split; [reflexivity|].
    apply Forall2_refl_on. intros p. now left.
  - exists st'. split; [exact Hrun|]. split; [exact Hfr|].
    split; [exact Hu|]. split; [exact Hc|].
    intros i p Hp. destruct (HQ i) as (p0 & p' & Hp0 & Hp' & Hrest).
    { apply elem_of_seq. split; [lia|]. cbn.
      eapply lookup_lt_Some; eauto. }
    exists p'. split; [exact Hp'|]. congruence.
Qed.

Lemma comments_spec postId st :
  let found := find_index (fun p => loose_eq (p_id p) postId) (data.posts st) in
  let sel := filter_index (fun c => loose_eq (c_postId c) postId)
                          (data.comments st) in
  exists st',
    root.comments postId st = Return sel st' /\
    persisted_but_image st st' /\
    data.users st' = data.users st /\
    (forall ci, ci ∈ sel ->
       exists c, data.comments st' !! ci = Some c /\
                 c_post c = Some (CommentPost found) /\
                 c_author c = Some (CommentAuthor found)) /\
    (forall ci, ci ∉ sel -> data.comments st' !! ci = data.comments st !! ci).
Proof.
  intros found sel. unfold root.comments, bind at 1, get. fold sel.
  set (body := fun comment : nat =>
         post <- root.post postId ;;
         modify_comment comment (set_comment_post (CommentPost post)) ;;;
         modify_comment comment (set_comment_author (CommentAuthor post)) ;;;
         ret comment).
  set (I := fun s => persisted_but_image st s /\
                     data.users s = data.users st /\
                     forall ci, ci ∉ sel ->
                       data.comments s !! ci = data.comments st !! ci).
  set (Q := fun (ci : nat) s =>
              exists c, data.comments s !! ci = Some c /\
                        c_post c = Some (CommentPost found) /\
                        c_author c = Some (CommentAuthor found)).
  edestruct (mapM_inv body I Q sel)
    as (st' & Hrun & (Hfr & Hu & Hout) & HQ & _).
  - intros x s Hx (Hfr & Hu & Hout).
    destruct (post_frame postId s) as (s1 & Hpost & Hfr1 & Hu1 & Hc1).
    assert (Hfound : find_index (fun p => loose_eq (p_id p) postId)
                                (data.posts s) = found).
    { unfold found.
      apply (find_index_key p_id (fun v => loose_eq v postId)).
      destruct Hfr as (_ & Hps & _).
      eapply Forall2_impl; [exact Hps|]. intros a b Hab. apply Hab. }
    rewrite Hfound in Hpost.
    eexists. split.
    { unfold body. rewrite (bind_Return _ _ _ _ _ Hpost). reflexivity. }
    cbn. rewrite Hc1.
    split; [split; [|split]|].
    + eapply persisted_but_image_trans; [exact Hfr|].
      destruct Hfr1 as (Hus & Hps & Hcs). rewrite Hc1 in Hcs.
      repeat split; cbn; [exact Hus|exact Hps|].
      repeat (apply Forall2_alter_r;
              [|intros a b _ _ Hab; eapply same_comment_trans;
                [exact Hab|repeat split]]).
      apply Forall2_refl_on, same_comment_refl.
    + cbn. congruence.
    + intros ci Hci. cbn.
      assert (x <> ci) by (intros ->; contradiction).
      rewrite !list_lookup_alter_ne by assumption. auto.
    + assert (Hxx : Q x
                (data.mkStore (data.users s1) (data.posts s1)
                   (alter (set_comment_author (CommentAuthor found)) x
                      (alter (set_comment_post (CommentPost found)) x
                         (data.comments s))))).
      { apply elem_of_filter_index in Hx as (c0 & Hc0 & _).
        destruct Hfr as (_ & _ & Hcs).
        destruct (Forall2_lookup_l _ _ _ _ _ Hcs Hc0) as (c & Hc & _).
        eexists. cbn. rewrite !list_lookup_alter_eq, Hc. cbn.
        split; [reflexivity|]. split; reflexivity. }
      split; [exact Hxx|]. intros y (c & Hc & HQy).
      destruct (decide (x = y)) as [<-|Hne]; [exact Hxx|].
      exists c. cbn. now rewrite !list_lookup_alter_ne.
  - split; [apply persisted_but_image_refl|]. split; auto.
  - exists st'. auto.
Qed.

End Loops.

(** C6: the id given to a new post, and to a new comment, is the number of
    entities its collection holds when it is created, plus one.  The new
    entity is the one appended at the end of the collection. *)
Theorem new_id_is_count_plus_one `{JsCoercion} (st : Store) (now : string) :
  (forall input : PostInput,
     exists r st',
       root.addPost input now st = Return r st' /\
       length (data.posts st') = S (length (data.posts st)) /\
       exists p, data.posts st' !! length (data.posts st) = Some p /\
                 p_id p = JNum (Z.of_nat (length (data.posts st)) + 1)) /\
  (forall input : CommentInput,
     exists r st',
       root.addComment input now st = Return r st' /\
       length (data.comments st') = S (length (data.comments st)) /\
       exists c, data.comments st' !! length (data.comments st) = Some c /\
                 c_id c = JNum (Z.of_nat (length (data.comments st)) + 1)).
Proof.
  split; intros input.
  - unfold root.addPost, bind at 1, get, bind at 1, push_post.
    match goal with |- context [root.post ?i ?s] =>
      destruct (post_frame i s) as (st' & Hpost & (_ & Hfr & _) & _) end.
    cbn in Hfr. eexists _, st'. split; [exact Hpost|].
    split.
    + rewrite <- (Forall2_length _ _ _ Hfr), length_app. cbn. lia.
    + eapply Forall2_lookup_l in Hfr as (p' & Hp' & Hsame);
        [|apply list_lookup_middle; reflexivity].
      exists p'. split; [exact Hp'|]. apply Hsame.
  - unfold root.addComment, root.find_comment_by_id, bind, get, push_comment.
    match goal with |- context [root.comments ?i ?s] =>
      destruct (comments_spec i s) as (st' & Hcs & (_ & _ & Hfr) & _) end.
    cbn in Hfr. rewrite Hcs.
    eexists _, st'. split; [reflexivity|].
    split.
    + rewrite <- (Forall2_length _ _ _ Hfr), length_app. cbn. lia.
    + eapply Forall2_lookup_l in Hfr as (c' & Hc' & Hsame);
        [|apply list_lookup_middle; reflexivity].
      exists c'. split; [exact Hc'|]. apply Hsame.
Qed.

(** C2: [user(id)] (and likewise [post(id)]) returns the stored entity
    whose id equals the requested id, as the first one in store order that
    does, which is the only one when ids are unique; when no stored entity
    has that id it returns null (here [None]), without throwing and without
    touching the store.  The entity returned is the stored object itself,
    given by its position. *)
Theorem lookup_by_id `{JsCoercion} (st : Store) (id : JsVal) :
  (forall i u,
     data.users st !! i = Some u ->
     loose_eq (u_id u) id = true ->
     (forall j u', data.users st !! j = Some u' -> (j < i)%nat ->
                   loose_eq (u_id u') id = false) ->
     exists st' u', root.user id st = Return (Some i) st' /\
                    data.users st' !! i = Some u' /\ same_user u u') /\
  (Forall (fun u => loose_eq (u_id u) id = false) (data.users st) ->
   root.user id st = Return None st) /\
  (forall i p,
     data.posts st !! i = Some p ->
     loose_eq (p_id p) id = true ->
     (forall j p', data.posts st !! j = Some p' -> (j < i)%nat ->
                   loose_eq (p_id p') id = false) ->
     exists st' p', root.post id st = Return (Some i) st' /\
                    data.posts st' !! i = Some p' /\ same_post p p') /\
  (Forall (fun p => loose_eq (p_id p) id = false) (data.posts st) ->
   root.post id st = Return None st).
Proof.
  split; [|split; [|split]].
  - intros i u Hu Hid Hfirst.
    assert (Hfind : find_index (fun u => loose_eq (u_id u) id) (data.users st)
                    = Some i) by (apply find_index_Some; eauto).
    destruct (user_frame id st) as (st' & Hrun & (Hus & _) & _).
    rewrite Hfind in Hrun.
    destruct (Forall2_lookup_l _ _ _ _ _ Hus Hu) as (u' & Hu' & Hsame).
    eauto.
  - intros Hnone%find_index_None. now rewrite user_unfold, Hnone.
  - intros i p Hp Hid Hfirst.
    assert (Hfind : find_index (fun p => loose_eq (p_id p) id) (data.posts st)
                    = Some i) by (apply find_index_Some; eauto).
    destruct (post_found id st i Hfind)
      as (st' & p0 & p' & Hrun & Hp0 & Hp' & Hsame & _).
    assert (p0 = p) as -> by congruence. eauto.
  - intros Hnone%find_index_None. now rewrite post_unfold, Hnone.
Qed.

Lemma lookup_by_id_witness :
  exists st' u', root.user (JStr "1") scenario = Return (Some 0%nat) st' /\
                 data.users st' !! 0%nat = Some u' /\
                 same_user (mkUser (JNum 1) "Ann" "ann@example.org" None) u'.
Proof.
  destruct (lookup_by_id scenario (JStr "1")) as (Hhit & _).
  apply Hhit; [reflexivity | reflexivity | intros j u' _ Hj; lia].
Defined.

(** C9: on every user that [user(id)] or [users()] returns, the field
    [avatar] with [size: S_512] is the URL [https://picsum.photos/512],
    which contains 512, and with no argument, where the schema's default
    [S_128] applies, the URL [https://picsum.photos/128], which contains
    128. *)
Theorem avatar_url_contains_size `{JsCoercion} (st st' : Store) (i : nat) :
  (exists id, root.user id st = Return (Some i) st') \/
  (exists rs, root.users st = Return rs st' /\ i ∈ rs) ->
  exists u url512 url128,
    data.users st' !! i = Some u /\
    field_avatar u (Some S_512) = Some url512 /\
    url512 = "https://picsum.photos/512" /\
    includes "512" url512 = true /\
    field_avatar u None = Some url128 /\
    url128 = "https://picsum.photos/128" /\
    includes "128" url128 = true.
Proof.
  intros Hret.
  assert (Hav : exists u, data.users st' !! i = Some u /\
                          u_avatar u = Some AvatarResolver).
  { destruct Hret as [(id & Hrun)|(rs & Hrun & Hi)].
    - rewrite user_unfold in Hrun.
      destruct find_index as [k|] eqn:Hfind; [|discriminate].
      injection Hrun as -> <-. cbn.
      apply find_index_Some in Hfind as (u & Hu & _).
      exists (set_avatar AvatarResolver u).
      now rewrite list_lookup_alter_eq, Hu.
    - destruct (users_spec st) as (st2 & Hrun2 & _ & _ & _ & Hdec).
      rewrite Hrun2 in Hrun. injection Hrun as <- <-. auto. }
  destruct Hav as (u & Hu & Hf).
  exists u, (call_avatar AvatarResolver (enum_name S_512)),
         (call_avatar AvatarResolver (enum_name avatar_default)).
  unfold field_avatar. rewrite Hf. repeat split; assumption || reflexivity.
Qed.

Lemma avatar_url_contains_size_witness :
  exists st' u url512 url128,
    root.user (JNum 1) scenario = Return (Some 0%nat) st' /\
    data.users st' !! 0%nat = Some u /\
    field_avatar u (Some S_512) = Some url512 /\
    url512 = "https://picsum.photos/512" /\
    includes "512" url512 = true /\
    field_avatar u None = Some url128 /\
    url128 = "https://picsum.photos/128" /\
    includes "128" url128 = true.
Proof.
  pose (st' := data.mkStore
                 [mkUser (JNum 1) "Ann" "ann@example.org" (Some AvatarResolver)]
                 (data.posts scenario) []).
  destruct (avatar_url_contains_size scenario st' 0)
    as (u & url512 & url128 & Hrest);
    [left; exists (JNum 1); reflexivity|].
  exists st', u, url512, url128. split; [reflexivity|exact Hrest].
Defined.

(** C5: the two post resolvers treat the image differently.  [posts()]
    keeps the image of every stored post that has a non-empty one and puts
    the fallback URL only where the image is absent (or empty), while
    [post(id)] puts the fallback URL on the post it returns whatever image
    was stored. *)
Theorem image_fallback_asymmetry `{JsCoercion} (st : Store) :
  (exists rs st',
     root.posts st = Return rs st' /\
     forall i p, data.posts st !! i = Some p ->
       i ∈ rs /\
       exists p', data.posts st' !! i = Some p' /\
                  (truthy (p_image p) = true -> p_image p' = p_image p) /\
                  (truthy (p_image p) = false ->
                   p_image p' = Some fallback_image)) /\
  (forall id i st',
     root.post id st = Return (Some i) st' ->
     exists p p', data.posts st !! i = Some p /\
                  data.posts st' !! i = Some p' /\
                  p_image p' = Some fallback_image).
Proof.
  split.
  - destruct (posts_spec st) as (st' & Hrun & _ & _ & _ & Hdec).
    eexists _, st'. split; [exact Hrun|]. intros i p Hp. split.
    + apply elem_of_seq. split; [lia|]. cbn. eapply lookup_lt_Some; eauto.
    + destruct (Hdec i p Hp) as (p' & Hp' & Himg & _).
      exists p'. split; [exact Hp'|]. rewrite Himg.
      split; intros Ht; [now apply js_or_truthy | now apply js_or_falsy].
  - intros id i st' Hrun.
    destruct (post_frame id st) as (st2 & Hrun2 & _).
    rewrite Hrun2 in Hrun. injection Hrun as Hfind <-.
    destruct (post_found id st i Hfind)
      as (st3 & p & p' & Hrun3 & Hp & Hp' & _ & Himg & _).
    rewrite Hrun2 in Hrun3. injection Hrun3 as _ <-. eauto.
Qed.

Lemma image_fallback_asymmetry_witness :
  exists p kept forced,
    data.posts seed1 !! 0%nat = Some p /\
    p_image p = Some "cat.png" /\
    data.posts (store_after (root.posts seed1) seed1) !! 0%nat = Some kept /\
    p_image kept = Some "cat.png" /\
    data.posts (store_after (root.post (JNum 1) seed1) seed1) !! 0%nat
    = Some forced /\
    p_image forced = Some fallback_image.
Proof.
  destruct (image_fallback_asymmetry seed1)
    as ((rs & st' & Hrun & Hposts) & Hpost).
  destruct (Hposts 0%nat (mkPost (JNum 1) "Hello" "First post" (JNum 1)
                                 (Some "cat.png") "Mon Jan 01 2024" None None))
    as (_ & kept & Hkept & Hsame & _); [reflexivity|].
  destruct (Hpost (JNum 1) 0%nat (store_after (root.post (JNum 1) seed1) seed1))
    as (p & forced & Hp & Hforced & Himg); [reflexivity|].
  exists p, kept, forced. split; [exact Hp|].
  split; [injection Hp as <-; reflexivity|].
  split; [rewrite Hrun; exact Hkept|].
  split; [apply Hsame; reflexivity|].
  split; [exact Hforced|exact Himg].
Defined.

(** C8: [comments(postId)] returns exactly the stored comments whose
    [postId] equals the argument: a stored comment is in the result if and
    only if its [postId] matches, each one once, with its persisted fields as
    stored. *)
Theorem comments_selects_matching `{JsCoercion} (st : Store) (postId : JsVal) :
  exists cs st',
    root.comments postId st = Return cs st' /\
    (forall i, i ∈ cs <->
               exists c, data.comments st !! i = Some c /\
                         loose_eq (c_postId c) postId = true) /\
    NoDup cs /\
    (forall i c, i ∈ cs -> data.comments st !! i = Some c ->
       exists c', data.comments st' !! i = Some c' /\ same_comment c c').
Proof.
  destruct (comments_spec postId st) as (st' & Hrun & (_ & _ & Hcs) & _).
  eexists _, st'. split; [exact Hrun|]. split; [|split].
  - intros i. apply elem_of_filter_index.
  - apply NoDup_filter_index_from.
  - intros i c _ Hc. eapply Forall2_lookup_l; eauto.
Qed.

(** The store of the missing-parent case: one comment on post 7, no post. *)
Lemma orphan_has_no_post `{JsCoercion} :
  Forall (fun p => loose_eq (p_id p) (JNum 7) = false) (data.posts orphan).
Proof. constructor. Qed.

(** C10: there is a store with a comment whose [postId] matches no stored
    post for which [comments(postId)] returns the comment and the comment's
    [author] field, when resolved, throws on [post.authorId] instead of
    yielding null. *)
Theorem comment_author_of_missing_post_throws `{JsCoercion} :
  exists (st : Store) (postId : JsVal) cs st' ci c e st'',
    Forall (fun p => loose_eq (p_id p) postId = false) (data.posts st) /\
    root.post postId st = Return None st /\
    root.comments postId st = Return cs st' /\
    ci ∈ cs /\
    data.comments st' !! ci = Some c /\
    c_author c = Some (CommentAuthor None) /\
    field_comment_author ci st' = Throw e st''.
Proof.
  exists orphan, (JNum 7). eexists _, _, 0%nat, _, _, _.
  split; [apply orphan_has_no_post|].
  split; [reflexivity|]. split; [reflexivity|].
  split; [left|]. split; [reflexivity|]. split; reflexivity.
Qed.

(** C4: for a comment returned by [comments(postId)] whose parent post
    exists, the [author] field resolves to [user(p.authorId)], [p] being
    the post that [post(postId)] finds: the author comes from the post, the
    comment's own [authorId] is not read. *)
Theorem comment_author_is_post_author `{JsCoercion}
    (st : Store) (postId : JsVal) cs st' pi st1 p ci :
  root.comments postId st = Return cs st' ->
  root.post postId st = Return (Some pi) st1 ->
  data.posts st !! pi = Some p ->
  ci ∈ cs ->
  field_comment_author ci st' = root.user (p_authorId p) st' /\
  exists r st'', root.user (p_authorId p) st' = Return r st''.
Proof.
  intros Hcs Hpost Hp Hci.
  destruct (comments_spec postId st) as (st2 & Hrun & (_ & Hps & _) & _ & Hdec & _).
  rewrite Hrun in Hcs. injection Hcs as <- <-.
  destruct (post_frame postId st) as (st3 & Hrun3 & _).
  rewrite Hrun3 in Hpost. injection Hpost as Hfind _.
  destruct (Hdec ci Hci) as (c & Hc & _ & Hauthor). rewrite Hfind in Hauthor.
  destruct (Forall2_lookup_l _ _ _ _ _ Hps Hp) as (p' & Hp' & Hsame).
  split.
  - unfold field_comment_author, bind, read_comment. rewrite Hc, Hauthor.
    cbn. unfold bind, read_post. rewrite Hp'.
    destruct Hsame as (_ & _ & _ & -> & _). reflexivity.
  - destruct (user_frame (p_authorId p) st2) as (st4 & Hu & _). eauto.
Qed.

Lemma comment_author_is_post_author_witness :
  field_comment_author 0%nat seed2_commented
  = root.user (JNum 1) seed2_commented /\
  exists r st'', root.user (JNum 1) seed2_commented = Return r st''.
Proof.
  apply (comment_author_is_post_author seed2 (JNum 1) [0%nat] seed2_commented
           0%nat (store_after (root.post (JNum 1) seed2) seed2)
           (mkPost (JNum 1) "Hello" "First post" (JNum 1) None
                   "Mon Jan 01 2024" None None) 0%nat);
    [reflexivity | reflexivity | reflexivity | left].
Defined.

(** On [seed2] the comment is by the second user and its [author] field
    yields the first, the author of the post. *)
Example comment_author_differs_from_own_authorId :
  exists c st1 st2,
    data.comments seed2_commented !! 0%nat = Some c /\
    c_authorId c = JNum 2 /\
    field_comment_author 0%nat seed2_commented = Return (Some 0%nat) st1 /\
    root.user (c_authorId c) seed2_commented = Return (Some 1%nat) st2.
Proof. eexists _, _, _. repeat split; reflexivity. Qed.

(** *** The two mutations *)

Lemma filter_index_from_app {A} (P : A -> bool) (l1 l2 : list A) (k : nat) :
  filter_index_from P (l1 ++ l2) k
  = filter_index_from P l1 k ++ filter_index_from P l2 (k + length l1).
Proof.
  revert k. induction l1 as [|a l1 IH]; intros k; cbn.
  - now rewrite Nat.add_0_r.
  - rewrite IH. replace (S k + length l1)%nat with (k + S (length l1))%nat by lia.
    now destruct (P a).
Qed.

Lemma filter_index_from_none {A} (P : A -> bool) (l : list A) (k : nat) :
  Forall (fun x => P x = false) l -> filter_index_from P l k = [].
Proof.
  intros HF. revert k. induction HF as [|a l Ha _ IH]; intros k; cbn.
  - reflexivity.
  - rewrite Ha. apply IH.
Qed.

(** [filter] by a key only looks at the key. *)
Lemma filter_index_key {A K} (key : A -> K) (g : K -> bool) (l l' : list A) :
  Forall2 (fun x x' => key x' = key x) l l' ->
  filter_index (fun x => g (key x)) l' = filter_index (fun x => g (key x)) l.
Proof.
  unfold filter_index. generalize 0%nat.
  intros k HF. revert k. induction HF as [|x x' l l' Hk _ IH]; intros k; cbn.
  - reflexivity.
  - rewrite Hk, IH. reflexivity.
Qed.

Section Mutations.
Context `{JsCoercion}.

(** [addComment] when no stored comment is on the input's post. *)
Lemma addComment_first (st : Store) (input : CommentInput) (now : string) :
  Forall (fun c => loose_eq (c_postId c) (ci_postId input) = false)
         (data.comments st) ->
  exists st1 c,
    root.addComment input now st
    = Return (Some (length (data.comments st))) st1 /\
    data.comments st1 !! length (data.comments st) = Some c /\
    c_id c = JNum (Z.of_nat (length (data.comments st)) + 1) /\
    c_text c = ci_text input /\
    c_authorId c = ci_authorId input /\
    c_postId c = ci_postId input /\
    c_createdAt c = now /\
    exists st2 c2,
      root.comments (ci_postId input) st1
      = Return [length (data.comments st)] st2 /\
      data.comments st2 !! length (data.comments st) = Some c2 /\
      same_comment c c2.
Proof.
  intros Hnone.
  set (n := length (data.comments st)).
  set (new := mkComment (JNum (Z.of_nat n + 1)) (ci_text input)
                        (ci_authorId input) now (ci_postId input) None None).
  set (s1 := data.mkStore (data.users st) (data.posts st)
                          (data.comments st ++ [new])).
  assert (Hsel : filter_index (fun c => loose_eq (c_postId c) (ci_postId input))
                              (data.comments s1) = [n]).
  { unfold filter_index. cbn [data.comments s1].
    rewrite filter_index_from_app, (filter_index_from_none _ _ _ Hnone).
    cbn. now rewrite loose_eq_refl. }
  destruct (comments_spec (ci_postId input) s1)
    as (st1 & Hrun & Hfr & _ & _ & _).
  rewrite Hsel in Hrun.
  assert (Hnew : data.comments s1 !! n = Some new)
    by (apply list_lookup_middle; reflexivity).
  destruct Hfr as (_ & _ & Hcs).
  destruct (Forall2_lookup_l _ _ _ _ _ Hcs Hnew) as (c & Hc & Hsame).
  destruct Hsame as (Hid & Htext & Hauth & Hcreated & Hpid).
  exists st1, c. split; [|split; [exact Hc|]].
  - unfold root.addComment, root.find_comment_by_id, bind, get, push_comment.
    fold n new s1. rewrite Hrun. unfold ret, find_value. cbn.
    rewrite Hc. cbn.
    destruct (decide (loose_eq (c_id c) (JNum (Z.of_nat n + 1)) = true))
      as [_|Hne]; [reflexivity|].
    exfalso. apply Hne. rewrite Hid. apply loose_eq_refl.
  - repeat (split; [assumption|]).
    destruct (comments_spec (ci_postId input) st1)
      as (st2 & Hrun2 & (_ & _ & Hcs2) & _).
    rewrite (filter_index_key c_postId (fun v => loose_eq v (ci_postId input))
                              (data.comments s1) (data.comments st1)) in Hrun2.
    + rewrite Hsel in Hrun2.
      destruct (Forall2_lookup_l _ _ _ _ _ Hcs2 Hc) as (c2 & Hc2 & Hsame2).
      eauto.
    + eapply Forall2_impl; [exact Hcs|]. intros a b Hab. apply Hab.
Qed.

(** [addPost] when no stored post already has the id the new one gets:
    the post returned is the new one, with the input's title, text and
    author; its image is the fallback URL whatever the input's image. *)
Lemma addPost_fresh (st : Store) (input : PostInput) (now : string) :
  Forall (fun p => loose_eq (p_id p)
                     (JNum (Z.of_nat (length (data.posts st)) + 1)) = false)
         (data.posts st) ->
  exists st1 p,
    root.addPost input now st = Return (Some (length (data.posts st))) st1 /\
    length (data.posts st1) = S (length (data.posts st)) /\
    data.posts st1 !! length (data.posts st) = Some p /\
    p_id p = JNum (Z.of_nat (length (data.posts st)) + 1) /\
    p_title p = pi_title input /\
    p_text p = pi_text input /\
    p_authorId p = pi_authorId input /\
    p_createdAt p = now /\
    p_image p = Some fallback_image.
Proof.
  intros Hfresh.
  set (n := length (data.posts st)).
  set (new := mkPost (JNum (Z.of_nat n + 1)) (pi_title input) (pi_text input)
                     (pi_authorId input) (pi_image input) now None None).
  set (s1 := data.mkStore (data.users st) (data.posts st ++ [new])
                          (data.comments st)).
  assert (Hfind : find_index (fun p => loose_eq (p_id p) (JNum (Z.of_nat n + 1)))
                             (data.posts s1) = Some n).
  { apply find_index_Some. exists new. cbn [data.posts s1].
    split; [apply list_lookup_middle; reflexivity|].
    split; [apply loose_eq_refl|].
    intros j y Hj Hlt. rewrite lookup_app_l in Hj by exact Hlt.
    eapply Forall_lookup_1 in Hfresh; eauto. }
  destruct (post_found _ _ _ Hfind)
    as (st1 & p & p' & Hrun & Hp & Hp' & Hsame & Himg & _).
  destruct (post_frame (JNum (Z.of_nat n + 1)) s1)
    as (st1' & Hrun' & (_ & Hps & _) & _).
  rewrite Hrun in Hrun'. injection Hrun' as _ <-.
  assert (p = new) as ->.
  { cbn [data.posts s1] in Hp.
    rewrite list_lookup_middle in Hp by reflexivity. congruence. }
  destruct Hsame as (Hid & Htitle & Htext & Hauth & Hcreated).
  exists st1, p'. split; [exact Hrun|]. split.
  - rewrite <- (Forall2_length _ _ _ Hps). cbn. rewrite length_app. cbn.
    fold n. lia.
  - split; [exact Hp'|]. repeat split; assumption.
Qed.

End Mutations.

(** C7: [addComment] for a post that has no comment yet succeeds: it
    returns the new comment, and [comments(postId)] afterwards returns it.
    In the scenario store (one user, one post, no comment),
    [addComment({authorId:1, postId:1, text:"hi"})] returns the comment with
    id 1, text "hi" and postId 1, and [comments(postId:1)] then returns that
    one entry and nothing else. *)
Theorem addComment_on_uncommented_post `{JsCoercion} (now : string) :
  (forall (st : Store) (input : CommentInput),
     Forall (fun c => loose_eq (c_postId c) (ci_postId input) = false)
            (data.comments st) ->
     exists new st1 c,
       root.addComment input now st = Return (Some new) st1 /\
       data.comments st !! new = None /\
       data.comments st1 !! new = Some c /\
       c_text c = ci_text input /\
       c_authorId c = ci_authorId input /\
       c_postId c = ci_postId input /\
       exists cs st2 c2,
         root.comments (ci_postId input) st1 = Return cs st2 /\
         new ∈ cs /\
         data.comments st2 !! new = Some c2 /\ same_comment c c2) /\
  (exists st1 c,
     root.addComment (mkCommentInput (JNum 1) (JNum 1) "hi") now scenario
     = Return (Some 0%nat) st1 /\
     data.comments st1 !! 0%nat = Some c /\
     c_id c = JNum 1 /\ c_text c = "hi" /\ c_postId c = JNum 1 /\
     c_authorId c = JNum 1 /\ c_createdAt c = now /\
     exists st2 c2,
       root.comments (JNum 1) st1 = Return [0%nat] st2 /\
       data.comments st2 !! 0%nat = Some c2 /\ same_comment c c2).
Proof.
  split.
  - intros st input Hnone.
    destruct (addComment_first st input now Hnone)
      as (st1 & c & Hrun & Hc & _ & Htext & Hauth & Hpid & _
          & st2 & c2 & Hrun2 & Hc2 & Hsame).
    exists (length (data.comments st)), st1, c.
    split; [exact Hrun|]. split; [now apply lookup_ge_None_2|].
    split; [exact Hc|]. repeat (split; [assumption|]).
    exists [length (data.comments st)], st2, c2.
    split; [exact Hrun2|]. split; [left|]. split; assumption.
  - destruct (addComment_first scenario
                (mkCommentInput (JNum 1) (JNum 1) "hi") now)
      as (st1 & c & Hrun & Hc & Hid & Htext & Hauth & Hpid & Hcreated & Hrest);
      [constructor|].
    exists st1, c. repeat (split; [assumption|]). exact Hrest.
Qed.

Lemma addComment_on_uncommented_post_witness :
  Forall (fun c => loose_eq (c_postId c) (JStr "1") = false)
         (data.comments orphan) /\
  exists new st1 c,
    root.addComment (mkCommentInput (JStr "1") (JStr "1") "hi")
                    "Wed Jan 03 2024" orphan
    = Return (Some new) st1 /\
    data.comments orphan !! new = None /\
    data.comments st1 !! new = Some c /\
    c_text c = "hi" /\ c_authorId c = JStr "1" /\ c_postId c = JStr "1" /\
    exists cs st2 c2,
      root.comments (JStr "1") st1 = Return cs st2 /\
      new ∈ cs /\
      data.comments st2 !! new = Some c2 /\ same_comment c c2.
Proof.
  assert (Hnone : Forall (fun c => loose_eq (c_postId c) (JStr "1") = false)
                         (data.comments orphan))
    by (repeat constructor).
  split; [exact Hnone|].
  destruct (addComment_on_uncommented_post "Wed Jan 03 2024") as (Hgen & _).
  exact (Hgen orphan (mkCommentInput (JStr "1") (JStr "1") "hi") Hnone).
Defined.

(** C1 (the code departs from it): [addPost] and then [post] of the new id
    give back the new post with the input's title, text and author, the id
    and the creation time, and the post count grows by one; but the image
    is the fallback URL and not the image of the input. *)
Theorem addPost_returns_fallback_image `{JsCoercion} (now : string) :
  let input := mkPostInput (JStr "1") "Second" "More text"
                           (Some "https://example.org/pic.png") in
  exists st1 st2 p,
    root.addPost input now scenario = Return (Some 1%nat) st1 /\
    length (data.posts st1) = S (length (data.posts scenario)) /\
    root.post (JNum 2) st1 = Return (Some 1%nat) st2 /\
    data.posts st2 !! 1%nat = Some p /\
    p_id p = JNum 2 /\
    p_title p = pi_title input /\
    p_text p = pi_text input /\
    p_authorId p = pi_authorId input /\
    p_createdAt p = now /\
    p_image p = Some fallback_image /\
    p_image p <> pi_image input.
Proof.
  intros input. subst input.
  eexists _, _, _. split; [lazy; reflexivity|]. split; [reflexivity|].
  split; [lazy; reflexivity|]. split; [reflexivity|].
  repeat (split; [reflexivity|]). discriminate.
Qed.

(** *** Queries and the store *)

Lemma user_found `{JsCoercion} id st i :
  find_index (fun u => loose_eq (u_id u) id) (data.users st) = Some i ->
  exists st' u',
    root.user id st = Return (Some i) st' /\
    data.users st' !! i = Some u' /\
    u_avatar u' = Some AvatarResolver.
Proof.
  intros Hfind. rewrite user_unfold, Hfind.
  apply find_index_Some in Hfind as (u & Hu & _).
  eexists _, _. split; [reflexivity|]. cbn.
  rewrite list_lookup_alter_eq, Hu. split; reflexivity.
Qed.




(** ** Further properties of the resolvers *)

(** *** Listings and lookups *)

(** X1: [users()] and [posts()] return every stored entity once, in store
    order, and add or remove none. *)
Theorem listings_return_every_entity `{JsCoercion} (st : Store) :
  (exists st', root.users st = Return (seq 0 (length (data.users st))) st' /\
               length (data.users st') = length (data.users st)) /\
  (exists st', root.posts st = Return (seq 0 (length (data.posts st))) st' /\
               length (data.posts st') = length (data.posts st)).
Proof.
  split.
  - destruct (users_spec st) as (st' & Hrun & (Hus & _) & _).
    exists st'. split; [exact Hrun|]. symmetry. eapply Forall2_length, Hus.
  - destruct (posts_spec st) as (st' & Hrun & (_ & Hps & _) & _).
    exists st'. split; [exact Hrun|]. symmetry. eapply Forall2_length, Hps.
Qed.

(** X2: whatever [user(id)] or [post(id)] returns has the requested id and
    is the first stored entity that has it; a null answer means that no
    stored entity has the id, and then the store is untouched. *)
Theorem lookup_sound `{JsCoercion} (st : Store) (id : JsVal) r st' :
  (root.user id st = Return r st' ->
   match r with
   | Some i =>
       exists u, data.users st !! i = Some u /\ loose_eq (u_id u) id = true /\
                 forall j u', data.users st !! j = Some u' -> (j < i)%nat ->
                              loose_eq (u_id u') id = false
   | None =>
       st' = st /\
       Forall (fun u => loose_eq (u_id u) id = false) (data.users st)
   end) /\
  (root.post id st = Return r st' ->
   match r with
   | Some i =>
       exists p, data.posts st !! i = Some p /\ loose_eq (p_id p) id = true /\
                 forall j p', data.posts st !! j = Some p' -> (j < i)%nat ->
                              loose_eq (p_id p') id = false
   | None =>
       st' = st /\
       Forall (fun p => loose_eq (p_id p) id = false) (data.posts st)
   end).
Proof.
  split; intros Hr.
  - rewrite user_unfold in Hr.
    destruct find_index as [k|] eqn:Hfind; injection Hr as <- <-.
    + now apply find_index_Some.
    + split; [reflexivity|]. now apply find_index_None.
  - rewrite post_unfold in Hr.
    destruct find_index as [k|] eqn:Hfind; injection Hr as <- <-.
    + now apply find_index_Some.
    + split; [reflexivity|]. now apply find_index_None.
Qed.

Lemma lookup_sound_witness :
  root.post (JStr "2") collide
  = Return (Some 0%nat) (store_after (root.post (JStr "2") collide) collide) /\
  exists p, data.posts collide !! 0%nat = Some p /\
            loose_eq (p_id p) (JStr "2") = true.
Proof.
  split; [reflexivity|].
  destruct (lookup_sound collide (JStr "2") (Some 0%nat)
              (store_after (root.post (JStr "2") collide) collide))
    as (_ & Hpost).
  destruct (Hpost eq_refl) as (p & Hp & Hid & _). eauto.
Defined.

(** The answer of a query is read off the ids and post ids alone. *)
Lemma run_query_returns `{JsCoercion} (q : Query) (st : Store) :
  exists a st', run_query q st = Return a st' /\ persisted_but_image st st'.
Proof.
  destruct q as [id| |id| |postId]; cbn [run_query].
  - destruct (user_frame id st) as (st' & Hrun & Hfr & _).
    eexists _, st'. split; [now rewrite (bind_Return _ _ _ _ _ Hrun)|auto].
  - destruct (users_spec st) as (st' & Hrun & Hfr & _).
    eexists _, st'. split; [now rewrite (bind_Return _ _ _ _ _ Hrun)|auto].
  - destruct (post_frame id st) as (st' & Hrun & Hfr & _).
    eexists _, st'. split; [now rewrite (bind_Return _ _ _ _ _ Hrun)|auto].
  - destruct (posts_spec st) as (st' & Hrun & Hfr & _).
    eexists _, st'. split; [now rewrite (bind_Return _ _ _ _ _ Hrun)|auto].
  - destruct (comments_spec postId st) as (st' & Hrun & Hfr & _).
    eexists _, st'. split; [now rewrite (bind_Return _ _ _ _ _ Hrun)|auto].
Qed.

Lemma run_query_same_answer `{JsCoercion} (q : Query) (st s : Store) :
  persisted_but_image st s ->
  exists a st' s', run_query q st = Return a st' /\
                   run_query q s = Return a s'.
Proof.
  intros (Hus & Hps & Hcs).
  destruct q as [id| |id| |postId]; cbn [run_query].
  - destruct (user_frame id st) as (st' & Hrun & _).
    destruct (user_frame id s) as (s' & Hrun' & _).
    rewrite (find_index_key u_id (fun v => loose_eq v id)
               (data.users st) (data.users s)) in Hrun'.
    + eexists _, st', s'. rewrite (bind_Return _ _ _ _ _ Hrun).
      rewrite (bind_Return _ _ _ _ _ Hrun'). split; reflexivity.
    + eapply Forall2_impl; [exact Hus|]. intros a b Hab. apply Hab.
  - destruct (users_spec st) as (st' & Hrun & _).
    destruct (users_spec s) as (s' & Hrun' & _).
    rewrite <- (Forall2_length _ _ _ Hus) in Hrun'.
    eexists _, st', s'. rewrite (bind_Return _ _ _ _ _ Hrun).
    rewrite (bind_Return _ _ _ _ _ Hrun'). split; reflexivity.
  - destruct (post_frame id st) as (st' & Hrun & _).
    destruct (post_frame id s) as (s' & Hrun' & _).
    rewrite (find_index_key p_id (fun v => loose_eq v id)
               (data.posts st) (data.posts s)) in Hrun'.
    + eexists _, st', s'. rewrite (bind_Return _ _ _ _ _ Hrun).
      rewrite (bind_Return _ _ _ _ _ Hrun'). split; reflexivity.
    + eapply Forall2_impl; [exact Hps|]. intros a b Hab. apply Hab.
  - destruct (posts_spec st) as (st' & Hrun & _).
    destruct (posts_spec s) as (s' & Hrun' & _).
    rewrite <- (Forall2_length _ _ _ Hps) in Hrun'.
    eexists _, st', s'. rewrite (bind_Return _ _ _ _ _ Hrun).
    rewrite (bind_Return _ _ _ _ _ Hrun'). split; reflexivity.
  - destruct (comments_spec postId st) as (st' & Hrun & _).
    destruct (comments_spec postId s) as (s' & Hrun' & _).
    rewrite (filter_index_key c_postId (fun v => loose_eq v postId)
               (data.comments st) (data.comments s)) in Hrun'.
    + eexists _, st', s'. rewrite (bind_Return _ _ _ _ _ Hrun).
      rewrite (bind_Return _ _ _ _ _ Hrun'). split; reflexivity.
    + eapply Forall2_impl; [exact Hcs|]. intros a b Hab. apply Hab.
Qed.

(** X3: what a query answers does not depend on the queries run before it:
    after any query [q1], a query [q2] returns the same entities as it does
    on the store before [q1]. *)
Theorem answers_ignore_earlier_queries `{JsCoercion} (q1 q2 : Query) (st : Store) :
  exists a1 st1 a2 st2 st2',
    run_query q1 st = Return a1 st1 /\
    run_query q2 st1 = Return a2 st2 /\
    run_query q2 st = Return a2 st2'.
Proof.
  destruct (run_query_returns q1 st) as (a1 & st1 & Hq1 & Hfr).
  destruct (run_query_same_answer q2 st st1 Hfr) as (a2 & st2' & st2 & H2 & H2').
  exists a1, st1, a2, st2, st2'. auto.
Qed.

(** *** Comments and their parent post *)

Section CommentsParent.
Context `{JsCoercion}.

(** When the post exists and some comment is selected, [comments] has run
    [root.post] on the parent. *)
Lemma comments_parent_decorated postId st pi x :
  find_index (fun p => loose_eq (p_id p) postId) (data.posts st) = Some pi ->
  x ∈ filter_index (fun c => loose_eq (c_postId c) postId) (data.comments st) ->
  exists st' p',
    root.comments postId st
    = Return (filter_index (fun c => loose_eq (c_postId c) postId)
                           (data.comments st)) st' /\
    data.posts st' !! pi = Some p' /\
    p_image p' = Some fallback_image /\
    p_author p' = Some (PostAuthor pi) /\
    p_comments p' = Some (PostCommentsById postId).
Proof.
  intros Hfound Hx. unfold root.comments, bind at 1, get.
  set (sel := filter_index _ _) in *.
  set (body := fun comment : nat =>
         post <- root.post postId ;;
         modify_comment comment (set_comment_post (CommentPost post)) ;;;
         modify_comment comment (set_comment_author (CommentAuthor post)) ;;;
         ret comment).
  set (I := fun s => persisted_but_image st s).
  set (Q := fun (_ : nat) s =>
              exists p', data.posts s !! pi = Some p' /\
                         p_image p' = Some fallback_image /\
                         p_author p' = Some (PostAuthor pi) /\
                         p_comments p' = Some (PostCommentsById postId)).
  edestruct (mapM_inv body I Q sel) as (st' & Hrun & _ & HQ & _).
  - intros y s Hy Hfr.
    assert (Hfind : find_index (fun p => loose_eq (p_id p) postId)
                               (data.posts s) = Some pi).
    { rewrite <- Hfound.
      apply (find_index_key p_id (fun v => loose_eq v postId)).
      destruct Hfr as (_ & Hps & _).
      eapply Forall2_impl; [exact Hps|]. intros a b Hab. apply Hab. }
    destruct (post_found postId s pi Hfind)
      as (s1 & p & p' & Hpost & _ & Hp' & _ & Himg & Hau & Hcm).
    destruct (post_frame postId s) as (s1' & Hpost' & Hfr1 & _ & Hc1).
    rewrite Hpost in Hpost'. injection Hpost' as _ <-.
    eexists. split.
    { unfold body. rewrite (bind_Return _ _ _ _ _ Hpost). reflexivity. }
    cbn. split; [|split].
    + eapply persisted_but_image_trans; [exact Hfr|].
      destruct Hfr1 as (Hus & Hps & Hcs).
      repeat split; cbn; [exact Hus|exact Hps|].
      repeat (apply Forall2_alter_r;
              [|intros a b _ _ Hab; eapply same_comment_trans;
                [exact Hab|repeat split]]).
      exact Hcs.
    + exists p'. cbn. auto.
    + intros z _. exists p'. cbn. auto.
  - apply persisted_but_image_refl.
  - destruct (HQ x Hx) as (p' & Hp'). exists st', p'. auto.
Qed.

End CommentsParent.

(** X4: [comments(postId)] with no stored comment on the post returns the
    empty list and leaves the store exactly as it was, whether the post
    exists or not.  With a comment on an existing post, it also puts the
    fallback URL on the stored image of that post. *)
Theorem comments_touch_parent_only_when_selecting `{JsCoercion}
    (st : Store) (postId : JsVal) :
  (Forall (fun c => loose_eq (c_postId c) postId = false) (data.comments st) ->
   root.comments postId st = Return [] st) /\
  (forall ci c pi st1,
     data.comments st !! ci = Some c ->
     loose_eq (c_postId c) postId = true ->
     root.post postId st = Return (Some pi) st1 ->
     exists cs st' p',
       root.comments postId st = Return cs st' /\
       ci ∈ cs /\
       data.posts st' !! pi = Some p' /\
       p_image p' = Some fallback_image).
Proof.
  split.
  - intros Hnone. unfold root.comments, bind, get, filter_index.
    now rewrite (filter_index_from_none _ _ _ Hnone).
  - intros ci c pi st1 Hc Hmatch Hpost.
    destruct (post_frame postId st) as (s & Hs & _).
    rewrite Hs in Hpost. injection Hpost as Hfind _.
    assert (Hci : ci ∈ filter_index (fun c => loose_eq (c_postId c) postId)
                                    (data.comments st))
      by (apply elem_of_filter_index; eauto).
    destruct (comments_parent_decorated postId st pi ci Hfind Hci)
      as (st' & p' & Hrun & Hp' & Himg & _).
    eexists _, st', p'. eauto.
Qed.

Lemma comments_touch_parent_only_when_selecting_witness :
  root.comments (JNum 1) seed1 = Return [] seed1 /\
  exists cs st' p',
    root.comments (JNum 1) seed2 = Return cs st' /\
    0%nat ∈ cs /\
    data.posts st' !! 0%nat = Some p' /\
    p_image p' = Some fallback_image.
Proof.
  destruct (comments_touch_parent_only_when_selecting seed1 (JNum 1))
    as (Hnone & _).
  destruct (comments_touch_parent_only_when_selecting seed2 (JNum 1))
    as (_ & Hsome).
  split; [apply Hnone; constructor|].
  apply (Hsome 0%nat
           (mkComment (JNum 1) "Nice" (JNum 2) "Tue Jan 02 2024" (JNum 1)
                      None None)
           0%nat (store_after (root.post (JNum 1) seed2) seed2));
    reflexivity.
Defined.

(** X5: when no stored post has the id, every comment that
    [comments(postId)] returns throws a TypeError on its [author] field, with
    the store as [comments] left it, and has no [post]. *)
Theorem orphan_comment_fields `{JsCoercion} (st : Store) (postId : JsVal) :
  Forall (fun p => loose_eq (p_id p) postId = false) (data.posts st) ->
  exists cs st',
    root.comments postId st = Return cs st' /\
    forall ci, ci ∈ cs ->
      (exists message,
         field_comment_author ci st' = Throw (TypeError message) st') /\
      field_comment_post ci st' = Return None st'.
Proof.
  intros Hnone%find_index_None.
  destruct (comments_spec postId st) as (st' & Hrun & _ & _ & Hdec & _).
  eexists _, st'. split; [exact Hrun|]. intros ci Hci.
  destruct (Hdec ci Hci) as (c & Hc & Hpost & Hauthor).
  rewrite Hnone in Hpost, Hauthor. split.
  - eexists. unfold field_comment_author, bind, read_comment.
    rewrite Hc, Hauthor. reflexivity.
  - unfold field_comment_post, bind, read_comment.
    rewrite Hc, Hpost. reflexivity.
Qed.

Lemma orphan_comment_fields_witness :
  exists cs st',
    root.comments (JNum 7) orphan = Return cs st' /\
    forall ci, ci ∈ cs ->
      (exists message,
         field_comment_author ci st' = Throw (TypeError message) st') /\
      field_comment_post ci st' = Return None st'.
Proof.
  apply (orphan_comment_fields orphan (JNum 7)). constructor.
Defined.

(** *** The mutations on any store *)

Section Answers.
Context `{JsCoercion}.

Lemma addPost_answer (st : Store) (now : string) (input : PostInput) :
  exists r st' p,
    root.addPost input now st = Return (Some r) st' /\
    data.posts st' !! r = Some p /\
    loose_eq (p_id p) (JNum (Z.of_nat (length (data.posts st)) + 1)) = true /\
    p_image p = Some fallback_image.
Proof.
  unfold root.addPost, bind at 1, get, bind at 1, push_post.
  set (n := length (data.posts st)).
  set (new := mkPost (JNum (Z.of_nat n + 1)) (pi_title input) (pi_text input)
                     (pi_authorId input) (pi_image input) now None None).
  set (s1 := data.mkStore (data.users st) (data.posts st ++ [new])
                          (data.comments st)).
  change (p_id new) with (JNum (Z.of_nat n + 1)).
  destruct (find_index (fun p => loose_eq (p_id p) (JNum (Z.of_nat n + 1)))
                       (data.posts s1)) as [r|] eqn:Hfind.
  + destruct (post_found _ _ _ Hfind)
      as (st' & p & p' & Hrun & Hp & Hp' & Hsame & Himg & _).
    apply find_index_Some in Hfind as (p0 & Hp0 & Hid & _).
    assert (p0 = p) as -> by congruence.
    exists r, st', p'. split; [exact Hrun|]. split; [exact Hp'|].
    split; [|exact Himg]. destruct Hsame as (-> & _). exact Hid.
  + exfalso. apply find_index_None in Hfind.
    eapply Forall_lookup_1 in Hfind;
      [|apply (list_lookup_middle (data.posts st) [] new n); reflexivity].
    cbn in Hfind. rewrite Z.eqb_refl in Hfind. discriminate.
Qed.

Lemma addComment_answer (st : Store) (now : string) (input : CommentInput) :
  exists r st' c,
    root.addComment input now st = Return (Some r) st' /\
    data.comments st' !! r = Some c /\
    loose_eq (c_id c) (JNum (Z.of_nat (length (data.comments st)) + 1)) = true /\
    loose_eq (c_postId c) (ci_postId input) = true.
Proof.
  unfold root.addComment, root.find_comment_by_id, bind, get, push_comment.
  set (n := length (data.comments st)).
  set (new := mkComment (JNum (Z.of_nat n + 1)) (ci_text input)
                        (ci_authorId input) now (ci_postId input) None None).
  set (s1 := data.mkStore (data.users st) (data.posts st)
                          (data.comments st ++ [new])).
  change (c_id new) with (JNum (Z.of_nat n + 1)).
  destruct (comments_spec (ci_postId input) s1)
    as (st' & Hrun & (_ & _ & Hcs) & _).
  rewrite Hrun. unfold ret, find_value.
  set (sel := filter_index _ _) in *.
  assert (Hnew : data.comments s1 !! n = Some new)
    by (apply list_lookup_middle; reflexivity).
  assert (Hn : n ∈ sel).
  { apply elem_of_filter_index. exists new. split; [exact Hnew|].
    apply loose_eq_refl. }
  match goal with |- context [list_find ?Q sel] =>
    destruct (list_find_elem_of Q sel n Hn) as ([k r] & Hfind) end.
  { destruct (Forall2_lookup_l _ _ _ _ _ Hcs Hnew) as (c & -> & Hid & _).
    rewrite Hid. apply loose_eq_refl. }
  rewrite Hfind. cbn.
  apply list_find_Some in Hfind as (Hk & HPr & _). cbn beta in HPr.
  destruct (data.comments st' !! r) as [c|] eqn:Hc; [|discriminate].
  exists r, st', c. split; [reflexivity|]. split; [exact Hc|].
  split; [exact HPr|].
  apply list_elem_of_lookup_2 in Hk.
  apply elem_of_filter_index in Hk as (c0 & Hc0 & Hpid).
  destruct (Forall2_lookup_l _ _ _ _ _ Hcs Hc0) as (c' & Hc' & Hsame).
  assert (c' = c) as -> by congruence.
  destruct Hsame as (_ & _ & _ & _ & ->). exact Hpid.
Qed.

End Answers.

(** X6: [addPost] and [addComment] validate nothing and always answer with
    an entity, never null and never an exception: a post that has the new
    id and the fallback image, a comment that has the new id and is on the
    input's post.  Neither the author nor, for a comment, the post need
    exist. *)
Theorem mutations_always_answer `{JsCoercion} (st : Store) (now : string) :
  (forall input : PostInput,
     exists r st' p,
       root.addPost input now st = Return (Some r) st' /\
       data.posts st' !! r = Some p /\
       loose_eq (p_id p) (JNum (Z.of_nat (length (data.posts st)) + 1)) = true /\
       p_image p = Some fallback_image) /\
  (forall input : CommentInput,
     exists r st' c,
       root.addComment input now st = Return (Some r) st' /\
       data.comments st' !! r = Some c /\
       loose_eq (c_id c) (JNum (Z.of_nat (length (data.comments st)) + 1)) = true /\
       loose_eq (c_postId c) (ci_postId input) = true).
Proof.
  split; intros input; [apply addPost_answer | apply addComment_answer].
Qed.

(** X7: when a stored post already has the id that [addPost] hands out,
    [addPost] answers with that older post (the first one with the id).
    The new post is stored all the same, at the end, with the input's image
    and no function attached, and is not what is returned. *)
Theorem addPost_id_collision `{JsCoercion}
    (st : Store) (input : PostInput) (now : string) (i : nat) (p : Post) :
  data.posts st !! i = Some p ->
  loose_eq (p_id p) (JNum (Z.of_nat (length (data.posts st)) + 1)) = true ->
  (forall j p', data.posts st !! j = Some p' -> (j < i)%nat ->
     loose_eq (p_id p') (JNum (Z.of_nat (length (data.posts st)) + 1)) = false) ->
  exists st' new,
    root.addPost input now st = Return (Some i) st' /\
    (i < length (data.posts st))%nat /\
    data.posts st' !! length (data.posts st) = Some new /\
    p_title new = pi_title input /\
    p_image new = pi_image input /\
    p_author new = None /\ p_comments new = None.
Proof.
  intros Hp Hid Hfirst.
  assert (Hlt : (i < length (data.posts st))%nat)
    by (eapply lookup_lt_Some; eauto).
  unfold root.addPost, bind at 1, get, bind at 1, push_post.
  set (n := length (data.posts st)) in *.
  set (new := mkPost (JNum (Z.of_nat n + 1)) (pi_title input) (pi_text input)
                     (pi_authorId input) (pi_image input) now None None).
  set (s1 := data.mkStore (data.users st) (data.posts st ++ [new])
                          (data.comments st)).
  change (p_id new) with (JNum (Z.of_nat n + 1)).
  assert (Hfind : find_index (fun p => loose_eq (p_id p) (JNum (Z.of_nat n + 1)))
                             (data.posts s1) = Some i).
  { apply find_index_Some. exists p. cbn [data.posts s1].
    split; [now apply lookup_app_l_Some|]. split; [exact Hid|].
    intros j y Hj Hji. rewrite lookup_app_l in Hj by lia. eauto. }
  rewrite post_unfold, Hfind.
  eexists _, new. split; [reflexivity|]. split; [exact Hlt|]. cbn.
  rewrite !list_lookup_alter_ne by lia.
  split; [apply list_lookup_middle; reflexivity|]. repeat split.
Qed.

Lemma addPost_id_collision_witness :
  exists st' new,
    root.addPost (mkPostInput (JStr "1") "New" "Body" (Some "new.png"))
                 "Wed Jan 03 2024" collide
    = Return (Some 0%nat) st' /\
    (0 < length (data.posts collide))%nat /\
    data.posts st' !! length (data.posts collide) = Some new /\
    p_title new = "New" /\
    p_image new = Some "new.png" /\
    p_author new = None /\ p_comments new = None.
Proof.
  apply (addPost_id_collision collide
           (mkPostInput (JStr "1") "New" "Body" (Some "new.png"))
           "Wed Jan 03 2024" 0%nat
           (mkPost (JNum 2) "Old" "Seeded with id 2" (JNum 1)
                   (Some "old.png") "Mon Jan 01 2024" None None));
    [reflexivity | reflexivity | intros j p' _ Hj; lia].
Defined.

(** X8: a mutation only appends.  [addPost] leaves users and comments
    untouched and every earlier post other than the one it returns exactly
    as it was; [addComment] leaves users untouched, adds no post, and leaves
    every earlier comment that is on another post exactly as it was.  The
    persisted fields other than a post's image are kept throughout. *)
Theorem mutations_only_append `{JsCoercion} (st : Store) (now : string) :
  (forall input : PostInput,
     exists r st',
       root.addPost input now st = Return r st' /\
       data.users st' = data.users st /\
       data.comments st' = data.comments st /\
       forall i p, data.posts st !! i = Some p ->
         exists p', data.posts st' !! i = Some p' /\ same_post p p' /\
                    (r <> Some i -> p' = p)) /\
  (forall input : CommentInput,
     exists r st',
       root.addComment input now st = Return r st' /\
       data.users st' = data.users st /\
       length (data.posts st') = length (data.posts st) /\
       (forall i p, data.posts st !! i = Some p ->
          exists p', data.posts st' !! i = Some p' /\ same_post p p') /\
       forall i c, data.comments st !! i = Some c ->
         exists c', data.comments st' !! i = Some c' /\ same_comment c c' /\
                    (loose_eq (c_postId c) (ci_postId input) = false -> c' = c)).
Proof.
  split; intros input.
  - unfold root.addPost, bind at 1, get, bind at 1, push_post.
    set (n := length (data.posts st)).
    set (new := mkPost (JNum (Z.of_nat n + 1)) (pi_title input) (pi_text input)
                       (pi_authorId input) (pi_image input) now None None).
    set (s1 := data.mkStore (data.users st) (data.posts st ++ [new])
                            (data.comments st)).
    destruct (post_frame (p_id new) s1) as (st' & Hrun & (_ & Hps & _) & Hu & Hc).
    eexists _, st'. split; [exact Hrun|]. split; [exact Hu|]. split; [exact Hc|].
    intros i p Hp.
    assert (Hp1 : data.posts s1 !! i = Some p) by now apply lookup_app_l_Some.
    destruct (Forall2_lookup_l _ _ _ _ _ Hps Hp1) as (p' & Hp' & Hsame).
    exists p'. split; [exact Hp'|]. split; [exact Hsame|].
    intros Hne. rewrite post_unfold in Hrun.
    destruct find_index as [k|]; injection Hrun as <-.
    + cbn in Hp', Hp1. rewrite !list_lookup_alter_ne in Hp' by congruence.
      congruence.
    + congruence.
  - unfold root.addComment, root.find_comment_by_id, bind, get, push_comment.
    set (n := length (data.comments st)).
    set (new := mkComment (JNum (Z.of_nat n + 1)) (ci_text input)
                          (ci_authorId input) now (ci_postId input) None None).
    set (s1 := data.mkStore (data.users st) (data.posts st)
                            (data.comments st ++ [new])).
    destruct (comments_spec (ci_postId input) s1)
      as (st' & Hrun & (_ & Hps & Hcs) & Hu & _ & Hout).
    rewrite Hrun. eexists _, st'. split; [reflexivity|].
    split; [exact Hu|].
    split; [symmetry; apply (Forall2_length _ _ _ Hps)|].
    split.
    + intros i p Hp. eapply Forall2_lookup_l; eauto.
    + intros i c Hc.
      assert (Hc1 : data.comments s1 !! i = Some c) by now apply lookup_app_l_Some.
      destruct (Forall2_lookup_l _ _ _ _ _ Hcs Hc1) as (c' & Hc' & Hsame).
      exists c'. split; [exact Hc'|]. split; [exact Hsame|].
      intros Hno. rewrite Hout in Hc'; [congruence|].
      intros (c0 & Hc0 & Hyes)%elem_of_filter_index. congruence.
Qed.

(** *** Function-valued fields *)

(** X9: on the post that [post(id)] returns, the field [author] is
    [user(post.authorId)], which answers null when there is no such user and
    never throws, and the field [comments] is [comments(id)] with the id as
    it was given to [post].  On a post returned by [posts()] the field
    [comments] is [comments(post.id)], with the stored id. *)
Theorem post_fields_resolve `{JsCoercion} (st : Store) :
  (forall id i st',
     root.post id st = Return (Some i) st' ->
     exists p, data.posts st !! i = Some p /\
       field_post_author i st' = root.user (p_authorId p) st' /\
       (exists r st'', field_post_author i st' = Return r st'') /\
       field_post_comments i st'
       = (rs <- root.comments id ;; ret (Some rs)) st') /\
  (exists rs st',
     root.posts st = Return rs st' /\
     forall i p, data.posts st !! i = Some p ->
       field_post_author i st' = root.user (p_authorId p) st' /\
       field_post_comments i st'
       = (rs <- root.comments (p_id p) ;; ret (Some rs)) st').
Proof.
  split.
  - intros id i st' Hrun.
    destruct (post_frame id st) as (s & Hs & _).
    rewrite Hs in Hrun. injection Hrun as Hfind <-.
    destruct (post_found id st i Hfind)
      as (s' & p & p' & Hs' & Hp & Hp' & Hsame & _ & Hau & Hcm).
    rewrite Hs in Hs'. injection Hs' as _ <-.
    destruct Hsame as (_ & _ & _ & Hauthor & _).
    assert (Hfa : field_post_author i s = root.user (p_authorId p) s).
    { unfold field_post_author, bind at 1, read_post. rewrite Hp', Hau. cbn.
      unfold bind, read_post. now rewrite Hp', Hauthor. }
    exists p. split; [exact Hp|]. split; [exact Hfa|]. split.
    + rewrite Hfa. destruct (user_frame (p_authorId p) s) as (s2 & Hu & _).
      eauto.
    + unfold field_post_comments, bind at 1, read_post. now rewrite Hp', Hcm.
  - destruct (posts_spec st) as (st' & Hrun & (_ & Hps & _) & _ & _ & Hdec).
    eexists _, st'. split; [exact Hrun|]. intros i p Hp.
    destruct (Hdec i p Hp) as (p' & Hp' & _ & Hau & Hcm).
    destruct (Forall2_lookup_l _ _ _ _ _ Hps Hp) as (p2 & Hp2 & Hsame).
    assert (p2 = p') as -> by congruence.
    destruct Hsame as (Hid & _ & _ & Hauthor & _).
    split.
    + unfold field_post_author, bind at 1, read_post. rewrite Hp', Hau. cbn.
      unfold bind, read_post. now rewrite Hp', Hauthor.
    + unfold field_post_comments, bind at 1, read_post. rewrite Hp', Hcm. cbn.
      unfold bind, read_post. now rewrite Hp', Hid.
Qed.

Lemma post_fields_resolve_witness :
  exists p, data.posts seed2 !! 0%nat = Some p /\
    field_post_author 0%nat (store_after (root.post (JStr "1") seed2) seed2)
    = root.user (p_authorId p)
                (store_after (root.post (JStr "1") seed2) seed2) /\
    (exists r st'',
       field_post_author 0%nat (store_after (root.post (JStr "1") seed2) seed2)
       = Return r st'') /\
    field_post_comments 0%nat (store_after (root.post (JStr "1") seed2) seed2)
    = (rs <- root.comments (JStr "1") ;; ret (Some rs))
        (store_after (root.post (JStr "1") seed2) seed2).
Proof.
  destruct (post_fields_resolve seed2) as (Hpost & _).
  apply (Hpost (JStr "1") 0%nat). reflexivity.
Defined.

(** X10: the field [post] of a comment returned by [comments(postId)] is
    the entity that [post(postId)] finds, null when there is none; reading
    it leaves the store as it is. *)
Theorem comment_post_is_parent `{JsCoercion}
    (st : Store) (postId : JsVal) cs st' r st1 ci :
  root.comments postId st = Return cs st' ->
  root.post postId st = Return r st1 ->
  ci ∈ cs ->
  field_comment_post ci st' = Return r st'.
Proof.
  intros Hcs Hpost Hci.
  destruct (comments_spec postId st) as (s & Hrun & _ & _ & Hdec & _).
  rewrite Hrun in Hcs. injection Hcs as <- <-.
  destruct (post_frame postId st) as (s1 & Hs1 & _).
  rewrite Hs1 in Hpost. injection Hpost as <- _.
  destruct (Hdec ci Hci) as (c & Hc & Hcp & _).
  unfold field_comment_post, bind, read_comment. now rewrite Hc, Hcp.
Qed.

Lemma comment_post_is_parent_witness :
  field_comment_post 0%nat seed2_commented
  = Return (Some 0%nat) seed2_commented.
Proof.
  apply (comment_post_is_parent seed2 (JNum 1) [0%nat] seed2_commented
           (Some 0%nat) (store_after (root.post (JNum 1) seed2) seed2) 0%nat);
    [reflexivity | reflexivity | left].
Defined.

(** *** The avatar URL *)

Lemma prefix_refl (s : string) : String.prefix s s = true.
Proof.
  induction s as [|a s IH]; cbn; [reflexivity|].
  destruct (ascii_dec a a); [exact IH|congruence].
Qed.

Lemma substr_0 (s : string) : substr s 0 = s.
Proof. now destruct s. Qed.

Lemma includes_prefix (needle hay : string) :
  String.prefix needle hay = true -> includes needle hay = true.
Proof. destruct hay; cbn [includes]; now intros ->. Qed.

Lemma includes_append (needle before : string) :
  includes needle (before +:+ needle) = true.
Proof.
  induction before as [|a before IH].
  - apply includes_prefix, prefix_refl.
  - change (String a before +:+ needle) with (String a (before +:+ needle)).
    cbn [includes]. rewrite IH. now destruct (String.prefix needle _).
Qed.

(** X11: the avatar function drops the first two characters of the size
    name: for a name [S_] followed by [d] the URL is the base followed by
    [d], and so contains [d]; each of the four sizes of the schema has such
    a name, with its number for [d]. *)
Theorem avatar_url_is_base_plus_size (f : AvatarFn) :
  (forall d : string,
     call_avatar f ("S_" +:+ d) = "https://picsum.photos/" +:+ d /\
     includes d (call_avatar f ("S_" +:+ d)) = true) /\
  (forall a : AvatarSizes,
     exists d, enum_name a = "S_" +:+ d /\
               d ∈ ["32"; "64"; "128"; "512"] /\
               forall u, u_avatar u = Some f ->
                 field_avatar u (Some a) = Some ("https://picsum.photos/" +:+ d)).
Proof.
  split.
  - intros d. destruct f. unfold call_avatar, picsum.
    change ("S_" +:+ d) with (String "S" (String "_" d)). cbn [substr].
    rewrite substr_0. split; [reflexivity|]. apply includes_append.
  - intros a.
    exists (substr (enum_name a) 2). destruct f.
    split; [now destruct a|]. split.
    + destruct a; cbn; repeat (constructor; try fail).
    + intros u Hu. unfold field_avatar. rewrite Hu. reflexivity.
Qed.

(** *** Stores whose ids follow the positions *)

Section Sequential.
Context `{JsCoercion}.

Lemma sequential_frame st st' :
  persisted_but_image st st' -> sequential_ids st -> sequential_ids st'.
Proof.
  intros (_ & Hps & Hcs) (Hp & Hc). split.
  - intros i p' Hp'.
    destruct (Forall2_lookup_r _ _ _ _ _ Hps Hp') as (p & Hpi & Hsame).
    destruct Hsame as (-> & _). eauto.
  - intros i c' Hc'.
    destruct (Forall2_lookup_r _ _ _ _ _ Hcs Hc') as (c & Hci & Hsame).
    destruct Hsame as (-> & _). eauto.
Qed.

Lemma sequential_fresh st :
  sequential_ids st ->
  Forall (fun p => loose_eq (p_id p)
                     (JNum (Z.of_nat (length (data.posts st)) + 1)) = false)
         (data.posts st).
Proof.
  intros (Hp & _). apply Forall_lookup_2. intros i p Hi.
  rewrite (Hp i p Hi). cbn. apply Z.eqb_neq.
  apply lookup_lt_Some in Hi. lia.
Qed.

Lemma sequential_addPost st input now :
  sequential_ids st ->
  exists st',
    root.addPost input now st = Return (Some (length (data.posts st))) st' /\
    length (data.posts st') = S (length (data.posts st)) /\
    sequential_ids st'.
Proof.
  intros Hseq.
  destruct (addPost_fresh st input now (sequential_fresh st Hseq))
    as (st1 & p & Hrun & Hlen & _).
  exists st1. split; [exact Hrun|]. split; [exact Hlen|].
  unfold root.addPost, bind at 1, get, bind at 1, push_post in Hrun.
  match type of Hrun with root.post ?i ?s = _ =>
    destruct (post_frame i s) as (st' & Hrun' & Hfr & _);
    rewrite Hrun' in Hrun; injection Hrun as _ <-;
    apply (sequential_frame s); [exact Hfr|] end.
  destruct Hseq as (Hp & Hc). split; cbn; [|exact Hc].
  intros i q [Hi|(Hle & Hi)]%lookup_app_Some; [eauto|].
  apply list_lookup_singleton_Some in Hi as (Hi & <-). cbn.
  do 2 f_equal. lia.
Qed.

Lemma sequential_addComment st input now :
  sequential_ids st ->
  exists st',
    root.addComment input now st
    = Return (Some (length (data.comments st))) st' /\
    sequential_ids st'.
Proof.
  intros Hseq.
  destruct (addComment_answer st now input) as (r & st1 & c & Hrun & Hc & Hid & _).
  assert (Hseq1 : sequential_ids st1).
  { pose proof Hrun as Hrun0.
    unfold root.addComment, root.find_comment_by_id, bind, get, push_comment
      in Hrun0.
    match type of Hrun0 with context [root.comments ?i ?s] =>
      destruct (comments_spec i s) as (st' & Hrun' & Hfr & _);
      rewrite Hrun' in Hrun0; injection Hrun0 as _ <-;
      apply (sequential_frame s); [exact Hfr|] end.
    destruct Hseq as (Hp & Hcm). split; cbn; [exact Hp|].
    intros i q [Hi|(Hle & Hi)]%lookup_app_Some; [eauto|].
    apply list_lookup_singleton_Some in Hi as (Hi & <-). cbn.
    do 2 f_equal. lia. }
  exists st1. split; [|exact Hseq1].
  destruct Hseq1 as (_ & Hcm). rewrite (Hcm r c Hc) in Hid. cbn in Hid.
  apply Z.eqb_eq in Hid.
  assert (r = length (data.comments st)) as -> by lia. exact Hrun.
Qed.

Lemma sequential_post st i :
  sequential_ids st -> (i < length (data.posts st))%nat ->
  find_index (fun p => loose_eq (p_id p) (JNum (Z.of_nat i + 1)))
             (data.posts st) = Some i.
Proof.
  intros (Hp & _) Hi.
  destruct (lookup_lt_is_Some_2 (data.posts st) i Hi) as [p Hpi].
  apply find_index_Some. exists p. split; [exact Hpi|].
  rewrite (Hp i p Hpi). split; [apply loose_eq_refl|].
  intros j q Hj Hlt. rewrite (Hp j q Hj). cbn. apply Z.eqb_neq. lia.
Qed.

End Sequential.

(** X12: stores whose ids follow the positions stay that way under every
    query and both mutations, and on such a store a mutation returns the
    entity it has just appended. *)
Theorem sequential_ids_kept `{JsCoercion} (st : Store) :
  sequential_ids st ->
  (forall q, exists a st', run_query q st = Return a st' /\ sequential_ids st') /\
  (forall input now, exists st',
     root.addPost input now st = Return (Some (length (data.posts st))) st' /\
     sequential_ids st') /\
  (forall input now, exists st',
     root.addComment input now st
     = Return (Some (length (data.comments st))) st' /\
     sequential_ids st').
Proof.
  intros Hseq. split; [|split].
  - intros q. destruct (run_query_returns q st) as (a & st' & Hrun & Hfr).
    exists a, st'. split; [exact Hrun|]. eapply sequential_frame; eauto.
  - intros input now.
    destruct (sequential_addPost st input now Hseq) as (st' & Hrun & _ & Hs).
    eauto.
  - intros input now. apply sequential_addComment. exact Hseq.
Qed.

Lemma scenario_sequential : sequential_ids scenario.
Proof.
  split.
  - intros [|[|i]] p Hp; cbn in Hp; try discriminate.
    now injection Hp as <-.
  - intros [|i] c Hc; discriminate Hc.
Defined.

Lemma sequential_ids_kept_witness :
  exists st',
    root.addPost (mkPostInput (JStr "1") "Second" "More text" None)
                 "Wed Jan 03 2024" scenario
    = Return (Some 1%nat) st' /\
    sequential_ids st'.
Proof.
  destruct (sequential_ids_kept scenario scenario_sequential) as (_ & Hadd & _).
  exact (Hadd (mkPostInput (JStr "1") "Second" "More text" None)
              "Wed Jan 03 2024").
Defined.

(** X13: on a store whose ids follow the positions, [post] with the number
    [i + 1] returns the post at position [i], [post] with a number outside
    1..count returns null, and a post added by [addPost] is found again
    under the id it was given. *)
Theorem sequential_lookup `{JsCoercion} (st : Store) :
  sequential_ids st ->
  (forall i, (i < length (data.posts st))%nat ->
     exists st', root.post (JNum (Z.of_nat i + 1)) st = Return (Some i) st') /\
  (forall k : Z, (k < 1 \/ Z.of_nat (length (data.posts st)) < k)%Z ->
     root.post (JNum k) st = Return None st) /\
  (forall input now, exists st1 st2,
     root.addPost input now st = Return (Some (length (data.posts st))) st1 /\
     root.post (JNum (Z.of_nat (length (data.posts st)) + 1)) st1
     = Return (Some (length (data.posts st))) st2).
Proof.
  intros Hseq. split; [|split].
  - intros i Hi. rewrite post_unfold, (sequential_post st i Hseq Hi). eauto.
  - intros k Hk. rewrite post_unfold.
    assert (Hnone : find_index (fun p => loose_eq (p_id p) (JNum k))
                               (data.posts st) = None).
    { apply find_index_None, Forall_lookup_2. intros i p Hi.
      destruct Hseq as (Hp & _). rewrite (Hp i p Hi). cbn. apply Z.eqb_neq.
      apply lookup_lt_Some in Hi. lia. }
    now rewrite Hnone.
  - intros input now.
    destruct (sequential_addPost st input now Hseq) as (st1 & Hrun & Hlen & Hs1).
    exists st1. eexists. split; [exact Hrun|].
    rewrite post_unfold, (sequential_post st1 _ Hs1); [reflexivity|lia].
Qed.

Lemma sequential_lookup_witness :
  (exists st', root.post (JNum 1) scenario = Return (Some 0%nat) st') /\
  root.post (JNum 5) scenario = Return None scenario.
Proof.
  destruct (sequential_lookup scenario scenario_sequential) as (Hhit & Hmiss & _).
  split; [apply (Hhit 0%nat); cbn; lia | apply Hmiss; cbn; lia].
Defined.

(** *** Asking twice *)

Lemma alter_fix {A} (f : A -> A) (l : list A) (i : nat) :
  (forall x, l !! i = Some x -> f x = x) -> alter f i l = l.
Proof.
  intros Hf. apply list_eq. intros j.
  destruct (decide (i = j)) as [<-|Hne].
  - rewrite list_lookup_alter_eq. destruct (l !! i) as [x|] eqn:Hx; cbn.
    + now rewrite (Hf x).
    + reflexivity.
  - now rewrite list_lookup_alter_ne.
Qed.

Lemma store_eta (st : Store) :
  data.mkStore (data.users st) (data.posts st) (data.comments st) = st.
Proof. now destruct st. Qed.

Lemma mapM_noop {A} (f : A -> M A) (l : list A) (st : Store) :
  (forall x, x ∈ l -> f x st = Return x st) -> mapM f l st = Return l st.
Proof.
  induction l as [|x rest IH]; intros Hf; [reflexivity|].
  cbn [mapM]. rewrite (bind_Return _ _ _ _ _ (Hf x (list_elem_of_here _ _))).
  rewrite (bind_Return _ _ _ _ _
             (IH (fun y Hy => Hf y (list_elem_of_further _ _ _ Hy)))).
  reflexivity.
Qed.

Lemma truthy_fallback (v : option string) :
  truthy (js_or v (Some fallback_image)) = true.
Proof. unfold js_or. now destruct (truthy v) eqn:Hv. Qed.

Section Twice.
Context `{JsCoercion}.

Lemma modify_user_noop i f st :
  (forall u, data.users st !! i = Some u -> f u = u) ->
  modify_user i f st = Return tt st.
Proof.
  intros Hf. unfold modify_user. now rewrite alter_fix, store_eta.
Qed.

Lemma modify_post_noop i f st :
  (forall p, data.posts st !! i = Some p -> f p = p) ->
  modify_post i f st = Return tt st.
Proof.
  intros Hf. unfold modify_post. now rewrite alter_fix, store_eta.
Qed.

Lemma modify_comment_noop i f st :
  (forall c, data.comments st !! i = Some c -> f c = c) ->
  modify_comment i f st = Return tt st.
Proof.
  intros Hf. unfold modify_comment. now rewrite alter_fix, store_eta.
Qed.

Lemma user_noop id st i u :
  find_index (fun u => loose_eq (u_id u) id) (data.users st) = Some i ->
  data.users st !! i = Some u ->
  u_avatar u = Some AvatarResolver ->
  root.user id st = Return (Some i) st.
Proof.
  intros Hfind Hu Hav. unfold root.user, bind at 1, get. rewrite Hfind.
  unfold bind. rewrite modify_user_noop; [reflexivity|].
  intros u' Hu'. assert (u' = u) as -> by congruence.
  destruct u; cbn in *; now subst.
Qed.

Lemma post_noop id st i p :
  find_index (fun p => loose_eq (p_id p) id) (data.posts st) = Some i ->
  data.posts st !! i = Some p ->
  p_image p = Some fallback_image ->
  p_author p = Some (PostAuthor i) ->
  p_comments p = Some (PostCommentsById id) ->
  root.post id st = Return (Some i) st.
Proof.
  intros Hfind Hp Himg Hau Hcm. unfold root.post, bind at 1, get.
  rewrite Hfind. unfold bind.
  rewrite !modify_post_noop; [reflexivity|..];
    intros p' Hp'; (assert (p' = p) as -> by congruence);
    destruct p; cbn in *; now subst.
Qed.

Lemma users_noop st :
  (forall i u, data.users st !! i = Some u -> u_avatar u = Some AvatarResolver) ->
  root.users st = Return (seq 0 (length (data.users st))) st.
Proof.
  intros Hdec. unfold root.users, bind at 1, get.
  apply mapM_noop. intros x _. unfold bind.
  rewrite modify_user_noop; [reflexivity|].
  intros u Hu. specialize (Hdec x u Hu). destruct u; cbn in *; now subst.
Qed.

Lemma posts_noop st :
  (forall i p, data.posts st !! i = Some p ->
     truthy (p_image p) = true /\
     p_author p = Some (PostAuthor i) /\
     p_comments p = Some (PostCommentsOf i)) ->
  root.posts st = Return (seq 0 (length (data.posts st))) st.
Proof.
  intros Hdec. unfold root.posts, bind at 1, get.
  apply mapM_noop. intros x _. unfold bind.
  rewrite !modify_post_noop; [reflexivity|..];
    intros p Hp; destruct (Hdec x p Hp) as (Himg & Hau & Hcm);
    [destruct p; cbn in *; now subst..|].
  rewrite (js_or_truthy _ _ Himg). now destruct p.
Qed.

Lemma comments_noop postId st :
  (forall ci, ci ∈ filter_index (fun c => loose_eq (c_postId c) postId)
                                (data.comments st) ->
     root.post postId st
     = Return (find_index (fun p => loose_eq (p_id p) postId) (data.posts st))
              st /\
     exists c, data.comments st !! ci = Some c /\
       c_post c = Some (CommentPost
                          (find_index (fun p => loose_eq (p_id p) postId)
                                      (data.posts st))) /\
       c_author c = Some (CommentAuthor
                            (find_index (fun p => loose_eq (p_id p) postId)
                                        (data.posts st)))) ->
  root.comments postId st
  = Return (filter_index (fun c => loose_eq (c_postId c) postId)
                         (data.comments st)) st.
Proof.
  intros Hdec. unfold root.comments, bind at 1, get.
  apply mapM_noop. intros x Hx.
  destruct (Hdec x Hx) as (Hpost & c & Hc & Hcp & Hca).
  rewrite (bind_Return _ _ _ _ _ Hpost). unfold bind.
  rewrite !modify_comment_noop; [reflexivity|..];
    intros c' Hc'; (assert (c' = c) as -> by congruence);
    destruct c; cbn in *; now subst.
Qed.

End Twice.

(** X14: asking the same query again gives the same answer and changes
    nothing more: the store a query leaves is a fixed point of that query. *)
Theorem query_idempotent `{JsCoercion} (q : Query) (st : Store) a st' :
  run_query q st = Return a st' ->
  run_query q st' = Return a st'.
Proof.
  destruct q as [id| |id| |postId]; cbn [run_query]; intros Hrun.
  - destruct (user_frame id st) as (s & Hs & (Hus & _) & _).
    rewrite (bind_Return _ _ _ _ _ Hs) in Hrun. injection Hrun as <- <-.
    assert (Hkey : find_index (fun u => loose_eq (u_id u) id) (data.users s)
                   = find_index (fun u => loose_eq (u_id u) id) (data.users st)).
    { apply (find_index_key u_id (fun v => loose_eq v id)).
      eapply Forall2_impl; [exact Hus|]. intros x y Hxy. apply Hxy. }
    destruct (find_index (fun u => loose_eq (u_id u) id) (data.users st))
      as [i|] eqn:Hfind.
    + destruct (user_found id st i Hfind) as (s' & u' & Hs' & Hu' & Hav).
      rewrite Hs in Hs'. injection Hs' as <-.
      now rewrite (bind_Return _ _ _ _ _ (user_noop id s i u' Hkey Hu' Hav)).
    + rewrite user_unfold, Hfind in Hs. injection Hs as <-.
      unfold bind. now rewrite user_unfold, Hfind.
  - destruct (users_spec st) as (s & Hs & (Hus & _) & _ & _ & Hdec).
    rewrite (bind_Return _ _ _ _ _ Hs) in Hrun. injection Hrun as <- <-.
    rewrite (Forall2_length _ _ _ Hus).
    assert (Hfix : forall i u, data.users s !! i = Some u ->
                                u_avatar u = Some AvatarResolver).
    { intros i u Hu. destruct (Hdec i) as (u' & Hu' & Hav); [|congruence].
      apply elem_of_seq. split; [lia|]. cbn.
      rewrite (Forall2_length _ _ _ Hus). eapply lookup_lt_Some; eauto. }
    now rewrite (bind_Return _ _ _ _ _ (users_noop s Hfix)).
  - destruct (post_frame id st) as (s & Hs & (_ & Hps & _) & _).
    rewrite (bind_Return _ _ _ _ _ Hs) in Hrun. injection Hrun as <- <-.
    assert (Hkey : find_index (fun p => loose_eq (p_id p) id) (data.posts s)
                   = find_index (fun p => loose_eq (p_id p) id) (data.posts st)).
    { apply (find_index_key p_id (fun v => loose_eq v id)).
      eapply Forall2_impl; [exact Hps|]. intros x y Hxy. apply Hxy. }
    destruct (find_index (fun p => loose_eq (p_id p) id) (data.posts st))
      as [i|] eqn:Hfind.
    + destruct (post_found id st i Hfind)
        as (s' & p & p' & Hs' & _ & Hp' & _ & Himg & Hau & Hcm).
      rewrite Hs in Hs'. injection Hs' as <-.
      now rewrite (bind_Return _ _ _ _ _
                     (post_noop id s i p' Hkey Hp' Himg Hau Hcm)).
    + rewrite post_unfold, Hfind in Hs. injection Hs as <-.
      unfold bind. now rewrite post_unfold, Hfind.
  - destruct (posts_spec st) as (s & Hs & (_ & Hps & _) & _ & _ & Hdec).
    rewrite (bind_Return _ _ _ _ _ Hs) in Hrun. injection Hrun as <- <-.
    rewrite (Forall2_length _ _ _ Hps).
    assert (Hfix : forall i p', data.posts s !! i = Some p' ->
              truthy (p_image p') = true /\
              p_author p' = Some (PostAuthor i) /\
              p_comments p' = Some (PostCommentsOf i)).
    { intros i p' Hp'.
      destruct (Forall2_lookup_r _ _ _ _ _ Hps Hp') as (p & Hp & _).
      destruct (Hdec i p Hp) as (p2 & Hp2 & Himg & Hau & Hcm).
      assert (p2 = p') as -> by congruence.
      rewrite Himg. split; [apply truthy_fallback|auto]. }
    now rewrite (bind_Return _ _ _ _ _ (posts_noop s Hfix)).
  - destruct (comments_spec postId st) as (s & Hs & (_ & Hps & Hcs) & _ & Hdec & _).
    rewrite (bind_Return _ _ _ _ _ Hs) in Hrun. injection Hrun as <- <-.
    assert (Hsel : filter_index (fun c => loose_eq (c_postId c) postId)
                                (data.comments s)
                   = filter_index (fun c => loose_eq (c_postId c) postId)
                                  (data.comments st)).
    { apply (filter_index_key c_postId (fun v => loose_eq v postId)).
      eapply Forall2_impl; [exact Hcs|]. intros x y Hxy. apply Hxy. }
    assert (Hkey : find_index (fun p => loose_eq (p_id p) postId) (data.posts s)
                   = find_index (fun p => loose_eq (p_id p) postId)
                                (data.posts st)).
    { apply (find_index_key p_id (fun v => loose_eq v postId)).
      eapply Forall2_impl; [exact Hps|]. intros x y Hxy. apply Hxy. }
    pose proof (comments_noop postId s) as Hnoop.
    rewrite Hsel, Hkey in Hnoop.
    rewrite (bind_Return _ _ _ _ _ (Hnoop ltac:(
      intros ci Hci; split; [|apply (Hdec ci Hci)];
      destruct (find_index (fun p => loose_eq (p_id p) postId) (data.posts st))
        as [pi|] eqn:Hfind;
      [destruct (comments_parent_decorated postId st pi ci Hfind Hci)
         as (s' & p' & Hs' & Hp' & Himg & Hau & Hcm);
       rewrite Hs in Hs'; injection Hs' as <-;
       apply (post_noop postId s pi p' Hkey Hp' Himg Hau Hcm)
      |now rewrite post_unfold, Hkey]))).
    reflexivity.
Qed.

Lemma query_idempotent_witness :
  run_query QPosts (store_after (run_query QPosts seed2) seed2)
  = Return (AList [0%nat]) (store_after (run_query QPosts seed2) seed2).
Proof.
  apply (query_idempotent QPosts seed2). reflexivity.
Defined.

(** *** What is ever written to a stored image *)

Section Images.
Context `{JsCoercion}.

Lemma image_same_or_fallback_refl st : image_same_or_fallback st st.
Proof. intros i p Hp. eauto. Qed.

Lemma image_same_or_fallback_trans st1 st2 st3 :
  image_same_or_fallback st1 st2 -> image_same_or_fallback st2 st3 ->
  image_same_or_fallback st1 st3.
Proof.
  intros H12 H23 i p Hp.
  destruct (H12 i p Hp) as (p2 & Hp2 & Hi2).
  destruct (H23 i p2 Hp2) as (p3 & Hp3 & Hi3).
  exists p3. split; [exact Hp3|].
  destruct Hi3 as [->| ->]; auto.
Qed.

Lemma image_same_or_fallback_posts st st' :
  data.posts st' = data.posts st -> image_same_or_fallback st st'.
Proof. intros Heq i p Hp. rewrite Heq. eauto. Qed.

Lemma post_image id st :
  exists r st', root.post id st = Return r st' /\ image_same_or_fallback st st'.
Proof.
  rewrite post_unfold. destruct find_index as [k|].
  - eexists _, _. split; [reflexivity|]. intros i p Hp. cbn.
    destruct (decide (k = i)) as [->|Hne].
    + rewrite !list_lookup_alter_eq, Hp. cbn. eauto.
    + rewrite !list_lookup_alter_ne by assumption. eauto.
  - eexists _, _. split; [reflexivity|]. apply image_same_or_fallback_refl.
Qed.

Lemma posts_image st :
  exists rs st', root.posts st = Return rs st' /\ image_same_or_fallback st st'.
Proof.
  destruct (posts_spec st) as (st' & Hrun & _ & _ & _ & Hdec).
  eexists _, st'. split; [exact Hrun|]. intros i p Hp.
  destruct (Hdec i p Hp) as (p' & Hp' & Himg & _).
  exists p'. split; [exact Hp'|]. rewrite Himg. unfold js_or.
  destruct (truthy (p_image p)); auto.
Qed.

Lemma comments_image postId st :
  exists rs st',
    root.comments postId st = Return rs st' /\ image_same_or_fallback st st'.
Proof.
  unfold root.comments, bind at 1, get.
  set (sel := filter_index _ _).
  set (body := fun comment : nat =>
         post <- root.post postId ;;
         modify_comment comment (set_comment_post (CommentPost post)) ;;;
         modify_comment comment (set_comment_author (CommentAuthor post)) ;;;
         ret comment).
  edestruct (mapM_inv body (image_same_or_fallback st) (fun _ _ => True) sel)
    as (st' & Hrun & Himg & _).
  - intros x s _ Hs.
    destruct (post_image postId s) as (r & s1 & Hpost & Hs1).
    eexists. split.
    { unfold body. rewrite (bind_Return _ _ _ _ _ Hpost). reflexivity. }
    cbn. split; [|auto].
    eapply image_same_or_fallback_trans; [exact Hs|].
    intros i p Hp. exact (Hs1 i p Hp).
  - apply image_same_or_fallback_refl.
  - eauto.
Qed.

End Images.

(** X15: the only thing a resolver ever writes to the image of a stored
    post is the fallback URL: after any query and after either mutation, each
    post that was stored before has the image it had or the fallback URL.
    So an image once replaced is not brought back. *)
Theorem image_is_kept_or_fallback `{JsCoercion} (st : Store) :
  (forall q, exists a st',
     run_query q st = Return a st' /\ image_same_or_fallback st st') /\
  (forall input now, exists r st',
     root.addPost input now st = Return r st' /\ image_same_or_fallback st st') /\
  (forall input now, exists r st',
     root.addComment input now st = Return r st' /\
     image_same_or_fallback st st').
Proof.
  split; [|split].
  - intros [id| |id| |postId]; cbn [run_query].
    + destruct (user_frame id st) as (st' & Hrun & _ & Hp & _).
      eexists _, st'. rewrite (bind_Return _ _ _ _ _ Hrun).
      split; [reflexivity|]. now apply image_same_or_fallback_posts.
    + destruct (users_spec st) as (st' & Hrun & _ & Hp & _).
      eexists _, st'. rewrite (bind_Return _ _ _ _ _ Hrun).
      split; [reflexivity|]. now apply image_same_or_fallback_posts.
    + destruct (post_image id st) as (r & st' & Hrun & Himg).
      eexists _, st'. rewrite (bind_Return _ _ _ _ _ Hrun). auto.
    + destruct (posts_image st) as (r & st' & Hrun & Himg).
      eexists _, st'. rewrite (bind_Return _ _ _ _ _ Hrun). auto.
    + destruct (comments_image postId st) as (r & st' & Hrun & Himg).
      eexists _, st'. rewrite (bind_Return _ _ _ _ _ Hrun). auto.
  - intros input now.
    unfold root.addPost, bind at 1, get, bind at 1, push_post.
    match goal with |- context [root.post ?i ?s] =>
      destruct (post_image i s) as (r & st' & Hrun & Himg) end.
    exists r, st'. split; [exact Hrun|]. intros i p Hp.
    apply Himg. cbn. now apply lookup_app_l_Some.
  - intros input now.
    unfold root.addComment, root.find_comment_by_id, bind, get, push_comment.
    match goal with |- context [root.comments ?i ?s] =>
      destruct (comments_image i s) as (rs & st' & Hrun & Himg) end.
    rewrite Hrun. eexists _, st'. split; [reflexivity|]. exact Himg.
Qed.

(** *** The websocket variant *)

Lemma broadcast_lookup (message : ws.Message) (clients : ws.Clients) k sent :
  clients !! k = Some sent ->
  ws.broadcast message clients !! k = Some (sent ++ [message]).
Proof.
  unfold ws.broadcast. revert k.
  induction clients as [|c cs IH]; intros [|k] Hk; cbn in *;
    try discriminate; [now injection Hk as ->|auto].
Qed.

(** X16: the variant's [addPost] returns what the plain [addPost] returns
    and leaves the same store.  Each connected socket is sent one message
    more, the [addPost] event, and nothing is sent when no socket is
    connected.  The event carries the post as it is right after the push:
    the new id, the fields of the input and the image of the input, not the
    fallback URL that the returned post has. *)
Theorem ws_addPost_broadcasts_pushed_post `{JsCoercion}
    (st : Store) (input : PostInput) (now : string) (clients : ws.Clients) :
  let pushed :=
    mkPost (JNum (Z.of_nat (length (data.posts st)) + 1)) (pi_title input)
           (pi_text input) (pi_authorId input) (pi_image input) now None None in
  let message := ws.makeEvent "addPost" (ws.NewPost pushed) in
  exists r st' clients',
    ws.addPost input now clients st = Return (r, clients') st' /\
    root.addPost input now st = Return r st' /\
    length clients' = length clients /\
    forall k sent, clients !! k = Some sent ->
                   clients' !! k = Some (sent ++ [message]).
Proof.
  intros pushed message.
  unfold ws.addPost, root.addPost, bind at 1, get.
  unfold bind at 1, push_post. unfold bind at 1, read_post.
  cbn [data.posts]. rewrite list_lookup_middle by reflexivity.
  unfold bind at 2, bind at 2. unfold get, push_post. fold pushed.
  match goal with |- context [root.post ?i ?s] =>
    destruct (post_frame i s) as (st' & Hrun & _) end.
  rewrite (bind_Return _ _ _ _ _ Hrun).
  eexists _, st', _. split; [reflexivity|]. split; [exact Hrun|].
  split; [apply length_map|]. intros k sent Hk. now apply broadcast_lookup.
Qed.

(** *** Listing what was added *)

(** X17: an entity that a mutation has added is listed right after, on any
    store: after [addComment], [comments] of the input's post returns the new
    comment (the one at the end of the store) with the input's text and
    author, and after [addPost], [posts()] returns the new post with the
    input's title, text and author. *)
Theorem added_entity_is_listed `{JsCoercion} (st : Store) (now : string) :
  (forall input : CommentInput,
     exists r st1 cs st2 c,
       root.addComment input now st = Return r st1 /\
       root.comments (ci_postId input) st1 = Return cs st2 /\
       length (data.comments st) ∈ cs /\
       data.comments st2 !! length (data.comments st) = Some c /\
       c_text c = ci_text input /\ c_authorId c = ci_authorId input /\
       c_postId c = ci_postId input /\ c_createdAt c = now) /\
  (forall input : PostInput,
     exists r st1 rs st2 p,
       root.addPost input now st = Return r st1 /\
       root.posts st1 = Return rs st2 /\
       length (data.posts st) ∈ rs /\
       data.posts st2 !! length (data.posts st) = Some p /\
       p_title p = pi_title input /\ p_text p = pi_text input /\
       p_authorId p = pi_authorId input /\ p_createdAt p = now).
Proof.
  split; intros input.
  - unfold root.addComment, root.find_comment_by_id, bind, get, push_comment.
    set (n := length (data.comments st)).
    set (new := mkComment (JNum (Z.of_nat n + 1)) (ci_text input)
                          (ci_authorId input) now (ci_postId input) None None).
    set (s1 := data.mkStore (data.users st) (data.posts st)
                            (data.comments st ++ [new])).
    destruct (comments_spec (ci_postId input) s1)
      as (st1 & Hrun & (_ & _ & Hcs) & _).
    rewrite Hrun.
    assert (Hnew : data.comments s1 !! n = Some new)
      by (apply list_lookup_middle; reflexivity).
    destruct (Forall2_lookup_l _ _ _ _ _ Hcs Hnew) as (c1 & Hc1 & Hsame1).
    destruct (comments_spec (ci_postId input) st1)
      as (st2 & Hrun2 & (_ & _ & Hcs2) & _).
    destruct (Forall2_lookup_l _ _ _ _ _ Hcs2 Hc1) as (c2 & Hc2 & Hsame2).
    destruct Hsame1 as (_ & Ht1 & Ha1 & Hd1 & Hp1).
    destruct Hsame2 as (_ & Ht2 & Ha2 & Hd2 & Hp2).
    cbn in Ht1, Ha1, Hd1, Hp1.
    eexists _, st1, _, st2, c2. split; [reflexivity|]. split; [exact Hrun2|].
    split.
    + apply elem_of_filter_index. exists c1. split; [exact Hc1|].
      rewrite Hp1. apply loose_eq_refl.
    + split; [exact Hc2|]. repeat split; congruence.
  - unfold root.addPost, bind at 1, get, bind at 1, push_post.
    set (n := length (data.posts st)).
    set (new := mkPost (JNum (Z.of_nat n + 1)) (pi_title input) (pi_text input)
                       (pi_authorId input) (pi_image input) now None None).
    set (s1 := data.mkStore (data.users st) (data.posts st ++ [new])
                            (data.comments st)).
    destruct (post_frame (p_id new) s1) as (st1 & Hrun & (_ & Hps & _) & _).
    assert (Hnew : data.posts s1 !! n = Some new)
      by (apply list_lookup_middle; reflexivity).
    destruct (Forall2_lookup_l _ _ _ _ _ Hps Hnew) as (p1 & Hp1 & Hsame1).
    destruct (posts_spec st1) as (st2 & Hrun2 & (_ & Hps2 & _) & _).
    destruct (Forall2_lookup_l _ _ _ _ _ Hps2 Hp1) as (p2 & Hp2 & Hsame2).
    destruct Hsame1 as (_ & Ht1 & Hx1 & Ha1 & Hd1).
    destruct Hsame2 as (_ & Ht2 & Hx2 & Ha2 & Hd2).
    cbn in Ht1, Hx1, Ha1, Hd1.
    eexists _, st1, _, st2, p2. split; [exact Hrun|]. split; [exact Hrun2|].
    split.
    + apply elem_of_seq. split; [lia|]. cbn. eapply lookup_lt_Some; eauto.
    + split; [exact Hp2|]. repeat split; congruence.
Qed.
